(** * pokemonApi: two ways of retrieving data from a consumption-only API

    A shallow embedding of [pokemonApi.py]: the asynchronous pipeline
    (asyncio and HTTPX) and the synchronous pipeline (requests), each made
    of a name lister, a page fetcher, a detail fetcher and an aggregator.

    The network is a parameter: a transport that answers each request from
    the URL and from the requests sent before it, and the order in which
    the answers to requests sent together come in.  Python exceptions are
    explicit outcomes, printing and HTTP traffic are recorded in a world
    that every function threads through. *)

From Stdlib Require Import ZArith Lia.
From stdpp Require Import gmap strings list fin_maps.

Set Warnings "-register-all".
Local Open Scope Z_scope.

(** ** Values decoded by [json.loads] *)

(** A decoded JSON document.  Numbers are Python ints (unbounded); the
    model has no floats.  An object is the dict that [json.loads] builds,
    as the list of its items; a dict holds a key once, and a lookup takes
    the first item with the key. *)
Inductive json : Type :=
  | JNull
  | JBool (b : bool)
  | JNum (n : Z)
  | JStr (s : string)
  | JArr (items : list json)
  | JObj (fields : list (string * json)).

(** ** Exceptions *)

(** The exceptions of a run.  [KeyError] and [TypeError] are raised by
    the program's own expressions.  [DecodeError] stands for the
    exception that [json.loads] raises on a body it does not decode
    ([json.JSONDecodeError] for text that is not JSON,
    [UnicodeDecodeError] for bytes that are not text), [TransportError]
    for an exception of the HTTP client; the program catches none of
    them and the model does not tell their classes apart. *)
Inductive fault : Type :=
  | KeyError (key : string)
  | TypeError
  | DecodeError
  | TransportError.

Inductive outcome (A : Type) : Type :=
  | Returned (a : A)
  | Raised (e : fault).
Arguments Returned {A} a.
Arguments Raised {A} e.

Global Instance fault_eq_dec : EqDecision fault.
Proof. solve_decision. Defined.

Global Instance outcome_eq_dec `{EqDecision A} : EqDecision (outcome A).
Proof. solve_decision. Defined.

Definition returned {A} (o : outcome A) : option A :=
  match o with Returned a => Some a | Raised _ => None end.

Definition obind {A B} (o : outcome A) (k : A → outcome B) : outcome B :=
  match o with Returned a => k a | Raised e => Raised e end.

(** ** Python operations on decoded values *)

Fixpoint assoc (key : string) (fields : list (string * json)) : option json :=
  match fields with
  | [] => None
  | (k, v) :: rest => if String.eqb k key then Some v else assoc key rest
  end.

(** [v[key]] for a string key: a dict answers or raises KeyError, every
    other value raises TypeError. *)
Definition subscript (v : json) (key : string) : outcome json :=
  match v with
  | JObj fields =>
      match assoc key fields with
      | Some x => Returned x
      | None => Raised (KeyError key)
      end
  | _ => Raised TypeError
  end.

(** [iter(v)]: a list yields its items, a dict its keys, a str its
    characters; None, bools and ints are not iterable. *)
Definition iterate (v : json) : outcome (list json) :=
  match v with
  | JArr items => Returned items
  | JObj fields => Returned (map (λ kv, JStr (fst kv)) fields)
  | JStr s => Returned (map (λ c, JStr (String c EmptyString)) (String.list_ascii_of_string s))
  | _ => Raised TypeError
  end.

(** [[f(x) for x in xs]]: stops at the first exception. *)
Fixpoint comprehension {A B} (f : A → outcome B) (xs : list A) : outcome (list B) :=
  match xs with
  | [] => Returned []
  | x :: rest =>
      obind (f x) (λ y, obind (comprehension f rest) (λ ys, Returned (y :: ys)))
  end.

(** The int that [offset < v] compares with; bool is a subclass of int,
    any other value makes the comparison raise TypeError. *)
Definition as_int (v : json) : outcome Z :=
  match v with
  | JNum n => Returned n
  | JBool b => Returned (if b then 1 else 0)
  | _ => Raised TypeError
  end.

(** Keys of the result dictionary: the hashable decoded values.  Python
    compares [True] and [1] (and [False] and [0]) equal as keys, so both
    are the same key here. *)
Inductive pykey : Type :=
  | KNone
  | KInt (n : Z)
  | KStr (s : string).

Global Instance pykey_eq_dec : EqDecision pykey.
Proof. solve_decision. Defined.

Global Instance pykey_countable : Countable pykey.
Proof.
  refine (inj_countable'
    (λ k, match k with
          | KNone => inl ()
          | KInt n => inr (inl n)
          | KStr s => inr (inr s)
          end)
    (λ x, match x with
          | inl _ => KNone
          | inr (inl n) => KInt n
          | inr (inr s) => KStr s
          end) _).
  by intros [].
Defined.

(** [hash(v)] as needed to use [v] as a dict key: lists and dicts are
    unhashable. *)
Definition hashable (v : json) : outcome pykey :=
  match v with
  | JNull => Returned KNone
  | JBool b => Returned (KInt (if b then 1 else 0))
  | JNum n => Returned (KInt n)
  | JStr s => Returned (KStr s)
  | JArr _ | JObj _ => Raised TypeError
  end.

(** ** Constants *)

Definition POKE_PER_PAGE : Z := 10.

(** The default of the [number] parameter of the aggregators. *)
Definition default_number : Z := 100.

(** ** HTTP *)

(** A URL is kept by the f-string that builds it and the values it
    interpolates:
    [Root] is [POKEMON_BASE_URL],
    [Page offset limit] is [f'{POKEMON_BASE_URL}/?offset={offset}&limit={limit}'],
    [Detail name] is [f'{POKEMON_BASE_URL}/{name}']. *)
Inductive Url : Type :=
  | Root
  | Page (offset limit : Z)
  | Detail (name : json).

(** A response: its status code and its body as [json.loads] sees it,
    [None] for a body on which [json.loads] raises. *)
Record Response : Type := mkResponse {
  status_code : Z;
  content : option json
}.

(** [json.loads(response.content)]: the decoded body, or the exception
    of [json.loads] (see [DecodeError]). *)
Definition loads (body : option json) : outcome json :=
  match body with
  | Some v => Returned v
  | None => Raised DecodeError
  end.

(** What the program prints, by template. *)
Inductive line : Type :=
  | RetrievingUrl (u : Url)          (* "retrieving url: {url}" *)
  | RetrievingDetails (u : Url)      (* "retrieving details from url: {url}" *)
  | NotOk                            (* "Api did not respond with status code 200!" *)
  | Saved (name : json).             (* "Pokemon '{name}' saved in dictionary..." *)

(** HTTP activity.  A request records the client object it went through:
    [Some c] for [client.get] on the [httpx.AsyncClient] number [c],
    [None] for the module-level [requests.get], which is given no session
    by the program. *)
Inductive event : Type :=
  | Opened (c : nat)
  | Got (via : option nat) (u : Url) (r : outcome Response)
  | Closed (c : nat).

Record World : Type := mkWorld {
  clients : nat;            (* client objects created so far *)
  trace : list event;       (* oldest first *)
  stdout : list line        (* oldest first *)
}.

Definition initial : World := mkWorld 0%nat [] [].

(** The URLs requested so far, oldest first. *)
Fixpoint requested (t : list event) : list Url :=
  match t with
  | [] => []
  | Got _ u _ :: rest => u :: requested rest
  | _ :: rest => requested rest
  end.

(** ** The monad of the program: state and exceptions *)

Definition M (A : Type) : Type := World → outcome A * World.

Definition ret {A} (a : A) : M A := λ w, (Returned a, w).

Definition bind {A B} (m : M A) (k : A → M B) : M B :=
  λ w, match m w with
       | (Returned a, w') => k a w'
       | (Raised e, w') => (Raised e, w')
       end.

Definition lift {A} (o : outcome A) : M A := λ w, (o, w).

Notation "'let*' x ':=' m 'in' k" := (bind m (λ x, k))
  (at level 10, x name, m at level 100, k at level 200).

Definition print (l : line) : M unit :=
  λ w, (Returned (), mkWorld (clients w) (trace w) (stdout w ++ [l])).

Definition emit (e : event) : World → World :=
  λ w, mkWorld (clients w) (trace w ++ [e]) (stdout w).

(** ** Coroutines and [asyncio.gather] *)

(** A coroutine of the program, cut at its one [await]: [launch] is what
    it does from its start up to the [await] (its result is what the
    [await] will deliver: the response, or the exception of the client),
    [land] is what it does with the response once it is resumed. *)
Record coroutine (A : Type) : Type := mkCoroutine {
  launch : M Response;
  land : Response → M A
}.
Arguments mkCoroutine {A} launch land.
Arguments launch {A} c.
Arguments land {A} c.

(** [await coroutine], with no other task running. *)
Definition await {A} (co : coroutine A) : M A := bind (launch co) (land co).

(** [gather] makes a task of each coroutine.  The tasks are started in
    submission order and each runs up to its [await] before any of them
    is resumed. *)
Fixpoint launch_all {A} (coroutines : list (coroutine A)) (w : World)
    : list (outcome Response) * World :=
  match coroutines with
  | [] => ([], w)
  | co :: rest =>
      let (r, w1) := launch co w in
      let (rs, w2) := launch_all rest w1 in
      (r :: rs, w2)
  end.

(** The gathered tasks: for each position the result or the exception of
    the task once it has finished, and the first exception raised, in
    time. *)
Record gathering (A : Type) : Type := mkGathering {
  finished : list (option (outcome A));
  first_exception : option fault
}.
Arguments mkGathering {A} finished first_exception.
Arguments finished {A} g.
Arguments first_exception {A} g.

(** A task that finishes with [o] at position [i]. *)
Definition finish {A} (i : nat) (o : outcome A) (g : gathering A) : gathering A :=
  mkGathering (<[i := Some o]> (finished g))
    (match first_exception g, o with
     | None, Raised e => Some e
     | first, _ => first
     end).

(** The task at position [i] is resumed with its answer and runs to its
    end. *)
Definition resume {A} (tasks : list (coroutine A * outcome Response)) (i : nat)
    (st : gathering A * World) : gathering A * World :=
  match tasks !! i with
  | Some (co, r) =>
      let (o, w') := bind (lift r) (land co) (snd st) in
      (finish i o (fst st), w')
  | None => st
  end.

(** The task at position [i] is resumed unless an exception has been
    raised. *)
Definition resume_unless_raised {A} (tasks : list (coroutine A * outcome Response))
    (i : nat) (st : gathering A * World) : gathering A * World :=
  match first_exception (fst st) with
  | None => resume tasks i st
  | Some _ => st
  end.

(** The positions of [n] tasks in the order they are resumed, for a
    completion order [completion]: first the positions it lists, then the
    others in submission order. *)
Definition resumed_first (completion : list nat) (n : nat) : list nat :=
  remove_dups (filter (λ i, (i < n)%nat) completion).

Definition resumed_last (completion : list nat) (n : nat) : list nat :=
  filter (λ i, i ∉ resumed_first completion n) (seq 0 n).

(** The results of the finished tasks, in submission order. *)
Definition results_of {A} (g : gathering A) : list A :=
  omap (λ o, match o with Some (Returned a) => Some a | _ => None end) (finished g).

(** [await asyncio.gather] on the coroutines.  Every task is started, in
    submission order, before any answer is handled, so all the requests
    are sent.  The tasks are then resumed as their answers come in: the
    tasks that [completion] lists, in that order, whatever they raise
    (they finish before the caller is resumed or the run is torn down),
    then the others in submission order until one raises.  The results
    come back in submission order; when a task raised, the first
    exception in time is raised instead. *)
Definition gather {A} (completion : list nat) (coroutines : list (coroutine A))
    : M (list A) :=
  λ w,
    let (answers, w1) := launch_all coroutines w in
    let tasks := zip coroutines answers in
    let n := length tasks in
    let st := (mkGathering (replicate n None) None, w1) in
    let st := foldl (λ st i, resume tasks i st) st (resumed_first completion n) in
    let st := foldl (λ st i, resume_unless_raised tasks i st) st
                (resumed_last completion n) in
    (match first_exception (fst st) with
     | Some e => Raised e
     | None => Returned (results_of (fst st))
     end, snd st).

Section Pipelines.

(** The transport: the answer to a request for [u] when the URLs in
    [history] were requested before it (oldest first).  It may raise
    instead of answering (connection error, timeout).  It sees neither
    the client object nor the timeout of the request. *)
Variable http : list Url → Url → outcome Response.

(** The order in which the answers to gathered requests come in: for a
    [gather] that starts when the URLs of [history] have been requested,
    the positions of its tasks in the order they are resumed (see
    [gather]).  Like the answers, it is decided by the network. *)
Variable timing : list Url → list nat.

(** [client.get(url, ...)] on the [httpx.AsyncClient] number [c] *)
Definition client_get (c : nat) (u : Url) : M Response :=
  λ w, let r := http (requested (trace w)) u in
       (r, emit (Got (Some c) u r) w).

(** [requests.get(url, ...)] *)
Definition requests_get (u : Url) : M Response :=
  λ w, let r := http (requested (trace w)) u in
       (r, emit (Got None u r) w).

(** [async with httpx.AsyncClient() as client: body]: the client is
    closed when the block is left, also by an exception. *)
Definition with_client {A} (body : nat → M A) : M A :=
  λ w, let c := clients w in
       let (r, w') := body c (mkWorld (S c) (trace w ++ [Opened c]) (stdout w)) in
       (r, emit (Closed c) w').

(** [await asyncio.gather(...)] at this point of the run. *)
Definition gathered {A} (coroutines : list (coroutine A)) : M (list A) :=
  λ w, gather (timing (requested (trace w))) coroutines w.

(** [[poke['name'] for poke in json_obj['results']]] *)
Definition page_names (json_obj : json) : outcome (list json) :=
  obind (subscript json_obj "results") (λ results,
  obind (iterate results) (λ pokes,
  comprehension (λ poke, subscript poke "name") pokes)).

(** [json_obj['count'] if max_pokemons is None else max_pokemons] *)
Definition nb_poke_of (json_obj : json) (max_pokemons : option Z) : outcome json :=
  match max_pokemons with
  | None => subscript json_obj "count"
  | Some n => Returned (JNum n)
  end.

(** *** Asynchronous version *)

(** The two fetchers, awaited on their own: nothing else runs between
    the request and its answer. *)
Definition get_pokemon_page_async (client : nat) (url : Url) : M (list json) :=
  let* _ := print (RetrievingUrl url) in
  let* response := client_get client url in
  if bool_decide (status_code response ≠ 200) then
    let* _ := print NotOk in
    ret []
  else
    let* json_obj := lift (loads (content response)) in
    lift (page_names json_obj).

Definition get_pokemon_details_async (client : nat) (url : Url) : M json :=
  let* _ := print (RetrievingDetails url) in
  let* response := client_get client url in
  if bool_decide (status_code response ≠ 200) then
    let* _ := print NotOk in
    ret (JObj [])
  else
    lift (loads (content response)).

(** The coroutine object [get_pokemon_page_async(client, url)], cut at
    its [await]. *)
Definition page_coroutine (client : nat) (url : Url) : coroutine (list json) :=
  mkCoroutine
    (let* _ := print (RetrievingUrl url) in
     client_get client url)
    (λ response,
       if bool_decide (status_code response ≠ 200) then
         let* _ := print NotOk in
         ret []
       else
         let* json_obj := lift (loads (content response)) in
         lift (page_names json_obj)).

(** The coroutine object [get_pokemon_details_async(client, url)], cut at
    its [await]. *)
Definition details_coroutine (client : nat) (url : Url) : coroutine json :=
  mkCoroutine
    (let* _ := print (RetrievingDetails url) in
     client_get client url)
    (λ response,
       if bool_decide (status_code response ≠ 200) then
         let* _ := print NotOk in
         ret (JObj [])
       else
         lift (loads (content response))).

(** The [while offset < nb_poke] loop that collects one coroutine per
    page.  [fuel] bounds the number of turns. *)
Fixpoint page_coroutines (fuel : nat) (client : nat) (offset nb_poke : Z)
    : list (coroutine (list json)) :=
  match fuel with
  | O => []
  | S fuel' =>
      if offset <? nb_poke then
        page_coroutine client (Page offset POKE_PER_PAGE)
          :: page_coroutines fuel' client (offset + POKE_PER_PAGE) nb_poke
      else []
  end.

Definition get_pokemon_names_async (client : nat) (max_pokemons : option Z)
    : M (list json) :=
  let* response := client_get client Root in
  if bool_decide (status_code response ≠ 200) then
    let* _ := print NotOk in
    ret []
  else
    let* json_obj := lift (loads (content response)) in
    let* nb_poke := lift (obind (nb_poke_of json_obj max_pokemons) as_int) in
    let coroutines := page_coroutines (Z.to_nat nb_poke) client 0 nb_poke in
    let* names_per_page := gathered coroutines in
    ret (concat names_per_page).

(** The two statements of the aggregators' loop body:
    [pokemons[poke_detail['name']] = poke_detail] and the print. *)
Definition save (pokemons : gmap pykey json) (poke_detail : json)
    : M (gmap pykey json) :=
  let* name := lift (subscript poke_detail "name") in
  let* key := lift (hashable name) in
  let pokemons := <[key := poke_detail]> pokemons in
  let* _ := print (Saved name) in
  ret pokemons.

(** [for poke_detail in details: ...] *)
Fixpoint save_all (details : list json) (pokemons : gmap pykey json)
    : M (gmap pykey json) :=
  match details with
  | [] => ret pokemons
  | poke_detail :: rest =>
      let* pokemons := save pokemons poke_detail in
      save_all rest pokemons
  end.

Definition get_pokemons_async (number : Z) : M (gmap pykey json) :=
  let pokemons : gmap pykey json := ∅ in
  with_client (λ client,
    let* names := get_pokemon_names_async client (Some number) in
    let coroutines :=
      map (λ name, details_coroutine client (Detail name)) names in
    let* details := gathered coroutines in
    save_all details pokemons).

(** *** Synchronous version *)

Definition get_pokemon_page_sync (url : Url) : M (list json) :=
  let* _ := print (RetrievingUrl url) in
  let* response := requests_get url in
  if bool_decide (status_code response ≠ 200) then
    let* _ := print NotOk in
    ret []
  else
    let* json_obj := lift (loads (content response)) in
    lift (page_names json_obj).

Definition get_pokemon_details_sync (url : Url) : M json :=
  let* _ := print (RetrievingDetails url) in
  let* response := requests_get url in
  if bool_decide (status_code response ≠ 200) then
    let* _ := print NotOk in
    ret (JObj [])
  else
    lift (loads (content response)).

(** The [while offset < nb_poke] loop that extends [names] page by
    page.  [fuel] bounds the number of turns. *)
Fixpoint pages_loop_sync (fuel : nat) (offset nb_poke : Z) (names : list json)
    : M (list json) :=
  match fuel with
  | O => ret names
  | S fuel' =>
      if offset <? nb_poke then
        let* page := get_pokemon_page_sync (Page offset POKE_PER_PAGE) in
        pages_loop_sync fuel' (offset + POKE_PER_PAGE) nb_poke (names ++ page)
      else ret names
  end.

Definition get_pokemon_names_sync (max_pokemons : option Z) : M (list json) :=
  let* response := requests_get Root in
  if bool_decide (status_code response ≠ 200) then
    let* _ := print NotOk in
    ret []
  else
    let* json_obj := lift (loads (content response)) in
    let* nb_poke := lift (obind (nb_poke_of json_obj max_pokemons) as_int) in
    pages_loop_sync (Z.to_nat nb_poke) 0 nb_poke [].

(** [for name in names: ...] *)
Fixpoint details_loop_sync (names : list json) (pokemons : gmap pykey json)
    : M (gmap pykey json) :=
  match names with
  | [] => ret pokemons
  | name :: rest =>
      let* poke_detail := get_pokemon_details_sync (Detail name) in
      let* pokemons := save pokemons poke_detail in
      details_loop_sync rest pokemons
  end.

Definition get_pokemons_sync (number : Z) : M (gmap pykey json) :=
  let pokemons : gmap pykey json := ∅ in
  let* names := get_pokemon_names_sync (Some number) in
  details_loop_sync names pokemons.

End Pipelines.

(** ** The pipelines described by their requests

    What the specification says of the two pipelines, as functions of the
    transport and of the requests already sent: which pages are asked for,
    what a fetch yields, and how the results are put together. *)

(** The offsets [offset], [offset + 10], ... of [count] page windows. *)
Fixpoint windows_from (offset : Z) (count : nat) : list Z :=
  match count with
  | O => []
  | S n => offset :: windows_from (offset + POKE_PER_PAGE) n
  end.

(** The number of windows of [POKE_PER_PAGE] items that cover
    [[0, cutoff)]: the ceiling of [cutoff / POKE_PER_PAGE], or none. *)
Definition pages_needed (cutoff : Z) : nat :=
  Z.to_nat ((cutoff + (POKE_PER_PAGE - 1)) / POKE_PER_PAGE).

(** The range [[0, cutoff)] split into page windows. *)
Definition page_windows (cutoff : Z) : list Z :=
  windows_from 0 (pages_needed cutoff).

Definition page_url (offset : Z) : Url := Page offset POKE_PER_PAGE.

(** The key under which a detail record is saved: its own [name]. *)
Definition key_of (poke_detail : json) : outcome pykey :=
  obind (subscript poke_detail "name") hashable.

(** [pokemons[poke_detail['name']] = poke_detail] *)
Definition store (pokemons : gmap pykey json) (poke_detail : json)
    : outcome (gmap pykey json) :=
  obind (key_of poke_detail) (λ key, Returned (<[key := poke_detail]> pokemons)).

Fixpoint store_all (details : list json) (pokemons : gmap pykey json)
    : outcome (gmap pykey json) :=
  match details with
  | [] => Returned pokemons
  | d :: rest => obind (store pokemons d) (store_all rest)
  end.

(** The outcomes of gathered tasks, as a function of their own outcomes
    [os] (in submission order) and of the completion order. *)
Definition settle_at {A} (os : list (outcome A)) (i : nat) (g : gathering A)
    : gathering A :=
  match os !! i with
  | Some o => finish i o g
  | None => g
  end.

Definition settle_unless_raised {A} (os : list (outcome A)) (i : nat)
    (g : gathering A) : gathering A :=
  match first_exception g with
  | None => settle_at os i g
  | Some _ => g
  end.

Definition settled {A} (completion : list nat) (os : list (outcome A))
    : gathering A :=
  let n := length os in
  foldl (λ g i, settle_unless_raised os i g)
    (foldl (λ g i, settle_at os i g) (mkGathering (replicate n None) None)
       (resumed_first completion n))
    (resumed_last completion n).

Definition settle {A} (completion : list nat) (os : list (outcome A))
    : outcome (list A) :=
  match first_exception (settled completion os) with
  | Some e => Raised e
  | None => Returned (results_of (settled completion os))
  end.

(** What is known of a gathering in which the tasks at the positions
    [done] have finished and none has raised. *)
Definition quiet {A} (os : list (outcome A)) (done : list nat) (g : gathering A)
    : Prop :=
  first_exception g = None
  ∧ length (finished g) = length os
  ∧ ∀ i, (i < length os)%nat →
      finished g !! i = Some (if decide (i ∈ done) then os !! i else None).

Section Described.

Variable http : list Url → Url → outcome Response.
Variable timing : list Url → list nat.

(** A page request yields the names of the page, or no name when the
    status is not 200. *)
Definition page_result (history : list Url) (u : Url) : outcome (list json) :=
  obind (http history u) (λ response,
    if bool_decide (status_code response ≠ 200) then Returned []
    else obind (loads (content response)) page_names).

(** A detail request yields the record, or the empty record when the
    status is not 200. *)
Definition detail_result (history : list Url) (u : Url) : outcome json :=
  obind (http history u) (λ response,
    if bool_decide (status_code response ≠ 200) then Returned (JObj [])
    else loads (content response)).

(** Requests sent one after the other, results in the order of the
    requests. *)
Fixpoint in_order {A} (fetch : list Url → Url → outcome A)
    (history : list Url) (urls : list Url) : outcome (list A) :=
  match urls with
  | [] => Returned []
  | u :: rest =>
      obind (fetch history u) (λ a,
      obind (in_order fetch (history ++ [u]) rest) (λ l, Returned (a :: l)))
  end.

(** The exchanges of a run of requests, through the client [via]. *)
Fixpoint exchanges (via : option nat) (history : list Url) (urls : list Url)
    : list event :=
  match urls with
  | [] => []
  | u :: rest =>
      Got via u (http history u) :: exchanges via (history ++ [u]) rest
  end.

(** The requests that are sent when each is sent only after the fetch
    before it has returned: all up to and including the first whose
    fetch raises. *)
Fixpoint sent_in_turn {A} (fetch : list Url → Url → outcome A)
    (history : list Url) (urls : list Url) : list Url :=
  match urls with
  | [] => []
  | u :: rest =>
      u :: match fetch history u with
           | Returned _ => sent_in_turn fetch (history ++ [u]) rest
           | Raised _ => []
           end
  end.

(** The name list of the specification: the root is fetched, the cutoff
    chosen, and the names of the pages are concatenated in page order. *)
Definition names_in_page_order (history : list Url) (max_pokemons : option Z)
    : outcome (list json) :=
  obind (http history Root) (λ response,
    if bool_decide (status_code response ≠ 200) then Returned []
    else
      obind (loads (content response)) (λ json_obj,
      obind (obind (nb_poke_of json_obj max_pokemons) as_int) (λ cutoff,
      obind (in_order page_result (history ++ [Root])
               (map page_url (page_windows cutoff))) (λ pages,
      Returned (concat pages))))).

(** A fetcher: one request through [via], and a result that depends on
    the answer only. *)
Definition fetcher {A} (via : option nat) (f : Url → M A)
    (g : list Url → Url → outcome A) : Prop :=
  ∀ u w,
    fst (f u w) = g (requested (trace w)) u
    ∧ trace (snd (f u w)) = trace w ++ [Got via u (http (requested (trace w)) u)]
    ∧ clients (snd (f u w)) = clients w.

(** The cutoff of the pagination, when the answer to the root request
    lets the pagination start. *)
Definition cutoff_of (root : outcome Response) (max_pokemons : option Z)
    : option Z :=
  match root with
  | Returned response =>
      if bool_decide (status_code response ≠ 200) then None
      else
        match content response with
        | Some json_obj => returned (obind (nb_poke_of json_obj max_pokemons) as_int)
        | None => None
        end
  | Raised _ => None
  end.

(** The page requests of a name lister. *)
Definition pages_asked (history : list Url) (max_pokemons : option Z) : list Url :=
  match cutoff_of (http history Root) max_pokemons with
  | Some cutoff => map page_url (page_windows cutoff)
  | None => []
  end.

(** The mapping of the specification: the names are listed, a detail
    record is fetched for each name in order, and each record is saved
    under its own name. *)
Definition aggregated (history : list Url) (number : Z)
    : outcome (gmap pykey json) :=
  obind (names_in_page_order history (Some number)) (λ names,
  obind (in_order detail_result
           (history ++ Root :: pages_asked history (Some number))
           (map Detail names)) (λ details,
  store_all details ∅)).

(** The detail requests of an aggregator: one per listed name. *)
Definition details_asked (history : list Url) (number : Z) : list Url :=
  match names_in_page_order history (Some number) with
  | Returned names => map Detail names
  | Raised _ => []
  end.

(** All the requests of an aggregator whose run is not cut short. *)
Definition requests_asked (history : list Url) (number : Z) : list Url :=
  Root :: pages_asked history (Some number) ++ details_asked history number.

(** What the page coroutine and the detail coroutine make of a
    response. *)
Definition page_landing (response : Response) : outcome (list json) :=
  if bool_decide (status_code response ≠ 200) then Returned []
  else obind (loads (content response)) page_names.

Definition detail_landing (response : Response) : outcome json :=
  if bool_decide (status_code response ≠ 200) then Returned (JObj [])
  else loads (content response).

(** The answers to requests sent one after the other. *)
Fixpoint answers (history : list Url) (urls : list Url) : list (outcome Response) :=
  match urls with
  | [] => []
  | u :: rest => http history u :: answers (history ++ [u]) rest
  end.

(** The outcomes of the tasks that send these requests, each landing
    with [landing]. *)
Definition outcomes {A} (landing : Response → outcome A)
    (history : list Url) (urls : list Url) : list (outcome A) :=
  map (λ r, obind r landing) (answers history urls).

(** A coroutine that sends one request through [via] when it is started
    and makes [landing] of the response, touching nothing else but the
    output. *)
Definition launching {A} (via : option nat) (f : Url → coroutine A)
    (landing : Response → outcome A) : Prop :=
  ∀ u,
    (∀ w,
       fst (launch (f u) w) = http (requested (trace w)) u
       ∧ trace (snd (launch (f u) w))
           = trace w ++ [Got via u (http (requested (trace w)) u)]
       ∧ clients (snd (launch (f u) w)) = clients w)
    ∧ (∀ response w,
         fst (land (f u) response w) = landing response
         ∧ trace (snd (land (f u) response w)) = trace w
         ∧ clients (snd (land (f u) response w)) = clients w).

(** The name list of the concurrent lister: as [names_in_page_order],
    with the pages gathered. *)
Definition names_gathered (history : list Url) (max_pokemons : option Z)
    : outcome (list json) :=
  obind (http history Root) (λ response,
    if bool_decide (status_code response ≠ 200) then Returned []
    else
      obind (loads (content response)) (λ json_obj,
      obind (obind (nb_poke_of json_obj max_pokemons) as_int) (λ cutoff,
      obind (settle (timing (history ++ [Root]))
               (outcomes page_landing (history ++ [Root])
                  (map page_url (page_windows cutoff)))) (λ pages,
      Returned (concat pages))))).

(** The mapping of the concurrent aggregator: as [aggregated], with the
    pages and the details gathered. *)
Definition aggregated_gathered (history : list Url) (number : Z)
    : outcome (gmap pykey json) :=
  obind (names_gathered history (Some number)) (λ names,
  obind (settle (timing (history ++ Root :: pages_asked history (Some number)))
           (outcomes detail_landing
              (history ++ Root :: pages_asked history (Some number))
              (map Detail names))) (λ details,
  store_all details ∅)).

End Described.

(** The detail records that the exchanges of a trace handed to the
    program: the decoded body of each answer to a detail request, the
    empty record for an answer whose status is not 200. *)
Fixpoint fetched_details (t : list event) : list json :=
  match t with
  | [] => []
  | Got _ (Detail _) (Returned response) :: rest =>
      (if bool_decide (status_code response ≠ 200) then [JObj []]
       else match content response with
            | Some d => [d]
            | None => []
            end) ++ fetched_details rest
  | _ :: rest => fetched_details rest
  end.

(** The events that a run adds to the trace. *)
Definition events_of {A} (m : M A) (w : World) : list event :=
  drop (length (trace w)) (trace (snd (m w))).

(** All requests of a trace went through the one client [c], opened
    before the first of them and closed after the last. *)
Definition one_session (c : nat) (t : list event) : Prop :=
  ∃ exchanged : list (Url * outcome Response),
    exchanged ≠ [] ∧
    t = Opened c :: map (λ x, Got (Some c) (fst x) (snd x)) exchanged ++ [Closed c].

(** Every event of a trace is a request sent without any client object. *)
Definition sessionless (t : list event) : Prop :=
  Forall (λ e, ∃ u r, e = Got None u r) t.

(** ** Test doubles *)

(** Answers that come in in the order of the requests, and answers that
    come in in the reverse order (for up to four requests). *)
Definition in_turn : list Url → list nat := λ _, [].

Definition last_first : list Url → list nat := λ _, [3; 2; 1; 0]%nat.

Definition named (s : string) : json := JObj [("name"%string, JStr s)].

Definition listing (count : Z) (names : list string) : json :=
  JObj [("count"%string, JNum count); ("results"%string, JArr (map named names))].

Definition ok (body : json) : outcome Response :=
  Returned (mkResponse 200 (Some body)).

Definition failed (status : Z) : outcome Response :=
  Returned (mkResponse status None).

(** Three mocked pages holding "a" "b", "c" "d" and "e"; the listing
    reports 25 items; the detail of a name is a record with that name. *)
Definition three_pages : list Url → Url → outcome Response :=
  λ _ u,
    match u with
    | Root => ok (listing 25 ["a"; "b"])
    | Page 0 _ => ok (listing 25 ["a"; "b"])
    | Page 10 _ => ok (listing 25 ["c"; "d"])
    | Page 20 _ => ok (listing 25 ["e"])
    | Page _ _ => ok (listing 25 [])
    | Detail (JStr s) => ok (named s)
    | Detail _ => failed 404
    end%string.

(** A listing endpoint that reports [count = 3] and lists "a", "b", "c"
    on its first page; three detail endpoints. *)
Definition three_pokemons : list Url → Url → outcome Response :=
  λ _ u,
    match u with
    | Root | Page 0 _ => ok (listing 3 ["a"; "b"; "c"])
    | Page _ _ => ok (listing 3 [])
    | Detail (JStr "a") => ok (named "a")
    | Detail (JStr "b") => ok (named "b")
    | Detail (JStr "c") => ok (named "c")
    | Detail _ => failed 404
    end%string.

Definition abc : gmap pykey json :=
  <[KStr "c" := named "c"]> (<[KStr "b" := named "b"]> (<[KStr "a" := named "a"]> ∅)).

(** A page whose answer has status 200 and holds exactly [POKE_PER_PAGE]
    names. *)
Definition full_page (r : outcome Response) : Prop :=
  ∃ response json_obj names,
    r = Returned response
    ∧ status_code response = 200
    ∧ content response = Some json_obj
    ∧ page_names json_obj = Returned names
    ∧ length names = Z.to_nat POKE_PER_PAGE.

Definition ten_names : list string :=
  ["p0"; "p1"; "p2"; "p3"; "p4"; "p5"; "p6"; "p7"; "p8"; "p9"]%string.

(** A listing of 1302 items whose every page is full. *)
Definition full_pages : list Url → Url → outcome Response :=
  λ _ u,
    match u with
    | Root | Page _ _ => ok (listing 1302 ten_names)
    | Detail name => ok (JObj [("name"%string, name)])
    end.


(** A listing endpoint that is down: every request is answered 503. *)
Definition unavailable : list Url → Url → outcome Response :=
  λ _ _, failed 503.

(** The last of the [fetched] records whose own name is the key [k]. *)
Definition last_named (k : pykey) (fetched : list json) : option json :=
  last (filter (λ d, key_of d = Returned k) fetched).

(** A result mapping built from the [fetched] records: every key is the
    name of its value, a key holds the last fetched record of that name,
    and a fetched record is found under its name when the fetched records
    of that name are all equal to it. *)
Definition keyed_by_name (fetched : list json) (result : gmap pykey json) : Prop :=
  (∀ k v, result !! k = Some v → key_of v = Returned k)
  ∧ (∀ k, result !! k = last_named k fetched)
  ∧ (∀ d, d ∈ fetched →
       (∀ d', d' ∈ fetched → key_of d' = key_of d → d' = d) →
       ∃ k, key_of d = Returned k ∧ result !! k = Some d).

(** Two names whose detail records carry the same name "x". *)
Definition same_name : list Url → Url → outcome Response :=
  λ _ u,
    match u with
    | Root | Page 0 _ => ok (listing 2 ["a"; "b"])
    | Page _ _ => ok (listing 2 [])
    | Detail (JStr "a") => ok (JObj [("name", JStr "x"); ("id", JNum 1)])
    | Detail (JStr "b") => ok (JObj [("name", JStr "x"); ("id", JNum 2)])
    | Detail _ => failed 404
    end%string.

(** Two names; the detail request of the first is answered 404. *)
Definition first_detail_fails : list Url → Url → outcome Response :=
  λ _ u,
    match u with
    | Root | Page 0 _ => ok (listing 2 ["a"; "b"])
    | Page _ _ => ok (listing 2 [])
    | Detail (JStr "b") => ok (named "b")
    | Detail _ => failed 404
    end%string.

(** Two pages; the request of the first page is answered 500. *)
Definition first_page_fails : list Url → Url → outcome Response :=
  λ _ u,
    match u with
    | Root => ok (listing 12 [])
    | Page 10 _ => ok (listing 12 ["k"; "l"])
    | Page _ _ => failed 500
    | Detail (JStr s) => ok (named s)
    | Detail _ => failed 404
    end%string.

(** Two pages that cannot be used: the first has status 200 and the
    body [{}], the second has status 200 and a body that does not
    decode. *)
Definition two_bad : list Url → Url → outcome Response :=
  λ _ u,
    match u with
    | Root => ok (listing 12 [])
    | Page 0 _ => ok (JObj [])
    | Page _ _ => Returned (mkResponse 200 None)
    | Detail _ => failed 404
    end.

(** A listing whose bodies have no count: every answer lists "a". *)
Definition no_count : list Url → Url → outcome Response :=
  λ _ u,
    match u with
    | Root | Page _ _ => ok (JObj [("results"%string, JArr [named "a"])])
    | Detail name => ok (JObj [("name"%string, name)])
    end.

(** The offsets that the [while offset < nb_poke] loops visit. *)
Fixpoint offsets_visited (fuel : nat) (offset nb_poke : Z) : list Z :=
  match fuel with
  | O => []
  | S fuel' =>
      if offset <? nb_poke then
        offset :: offsets_visited fuel' (offset + POKE_PER_PAGE) nb_poke
      else []
  end.

(** What a fetcher prints for a request answered by [r]. *)
Definition diagnostics (r : outcome Response) : list line :=
  match r with
  | Returned response =>
      if bool_decide (status_code response ≠ 200) then [NotOk] else []
  | Raised _ => []
  end.

(** ** The comparison driver *)

(** What the driver run prints: the lines of the pipelines and the lines
    of [compare_sync_async] itself, by template.  Durations are kept as
    the difference of two clock readings, the ratio by its two operands. *)
Inductive report : Type :=
  | Printed (l : line)
  | AsyncRan (elapsed_async : Z)       (* "Asynchronous process ran in {elapsed_async}s" *)
  | SyncRan (elapsed_sync : Z)         (* "synchronous process ran in {elapsed_sync}s" *)
  | AsyncCount (n : nat)               (* "number of pokemons with async process: {len(pokemons_async)}" *)
  | SyncCount (n : nat)                (* "number of pokemons with sync process: {len(pokemons_sync)}" *)
  | Faster (elapsed_sync elapsed_async : Z).
                                       (* "Asynchronous process is {elapsed_sync / elapsed_async:.1f} faster ..." *)

(** The driver catches nothing: it ends normally, or by an exception of
    a pipeline, or by the division of the two durations. *)
Inductive driver_end : Type :=
  | Finished
  | PipelineRaised (e : fault)
  | ZeroDivisionError.

(** The lines that a pipeline printed between two worlds. *)
Definition printed_since (w w' : World) : list report :=
  map Printed (drop (length (stdout w)) (stdout w')).

(** [compare_sync_async()].  The four readings of [datetime.now()] are
    inputs: [t0] and [t1] around the asynchronous run, [t2] and [t3]
    around the synchronous one.  The result is how the driver ends, what
    the run printed in order, and the world it leaves. *)
Definition compare_sync_async (http : list Url → Url → outcome Response)
    (timing : list Url → list nat)
    (t0 t1 t2 t3 : Z) (w : World) : driver_end * list report * World :=
  let max_pokemons := 1302 in
  let start := t0 in
  match get_pokemons_async http timing max_pokemons w with
  | (Raised e, w1) => (PipelineRaised e, printed_since w w1, w1)
  | (Returned pokemons_async, w1) =>
      let elapsed_async := t1 - start in
      let out := printed_since w w1 ++ [AsyncRan elapsed_async] in
      let start := t2 in
      match get_pokemons_sync http max_pokemons w1 with
      | (Raised e, w2) => (PipelineRaised e, out ++ printed_since w1 w2, w2)
      | (Returned pokemons_sync, w2) =>
          let elapsed_sync := t3 - start in
          let out := out ++ printed_since w1 w2
                       ++ [SyncRan elapsed_sync;
                           AsyncCount (size pokemons_async);
                           SyncCount (size pokemons_sync)] in
          if elapsed_async =? 0 then (ZeroDivisionError, out, w2)
          else (Finished, out ++ [Faster elapsed_sync elapsed_async], w2)
      end
  end.

(** A transport whose answers do not depend on the requests sent
    before. *)
Definition stateless (http : list Url → Url → outcome Response) : Prop :=
  ∀ history history' u, http history u = http history' u.

(** The answer to a page request, whatever was requested before: the
    names of a well-formed page with status 200, or some other status. *)
Definition page_answer (http : list Url → Url → outcome Response)
    (u : Url) (page : option (list json)) : Prop :=
  ∀ history, ∃ response,
    http history u = Returned response
    ∧ match page with
      | Some names =>
          status_code response = 200
          ∧ ∃ body, content response = Some body ∧ page_names body = Returned names
      | None => status_code response ≠ 200
      end.

(** A page request answered with status 200 and a body that the page
    fetcher cannot use: it does not decode, or extracting the names
    raises. *)
Definition page_unusable (http : list Url → Url → outcome Response)
    (u : Url) : Prop :=
  ∀ history, ∃ response,
    http history u = Returned response
    ∧ status_code response = 200
    ∧ (content response = None
       ∨ ∃ body e, content response = Some body ∧ page_names body = Raised e).

(** The keys of a result mapping are exactly the names of the [fetched]
    records, and the mapping is no larger than their number. *)
Definition named_after (fetched : list json) (result : gmap pykey json) : Prop :=
  (∀ k, is_Some (result !! k) ↔ ∃ d, d ∈ fetched ∧ key_of d = Returned k)
  ∧ (size result ≤ length fetched)%nat.

(** Every request of a trace was answered: the transport raised for
    none of them. *)
Definition all_answered (t : list event) : Prop :=
  ∀ via u r, Got via u r ∈ t → ∃ response, r = Returned response.

(** ** What a run prints for its requests *)

(** The line that announces a request: the page fetchers and the detail
    fetchers print one before they send it, the root request is sent
    unannounced. *)
Definition announce (u : Url) : list line :=
  match u with
  | Root => []
  | Page _ _ => [RetrievingUrl u]
  | Detail _ => [RetrievingDetails u]
  end.

(** The lines printed for the requests of a trace, in order: the
    announcement of each request and, after it, the message of an answer
    whose status is not 200. *)
Fixpoint lines_of (t : list event) : list line :=
  match t with
  | [] => []
  | Got _ u r :: rest => announce u ++ diagnostics r ++ lines_of rest
  | _ :: rest => lines_of rest
  end.

Definition is_saved (l : line) : bool :=
  match l with Saved _ => true | _ => false end.

(** From [w] to [w'] the trace and the output only grew, and the lines
    printed, the "saved" lines apart, are the lines of the new requests. *)
Definition follows (w w' : World) : Prop :=
  ∃ t printed,
    trace w' = trace w ++ t
    ∧ stdout w' = stdout w ++ printed
    ∧ filter (λ l, is_saved l = false) printed = lines_of t.

(** From [w] to [w'] the output grew by messages "Api did not respond
    with status code 200!" only. *)
Definition messages_after (w w' : World) : Prop :=
  ∃ messages,
    stdout w' = stdout w ++ messages ∧ Forall (λ l, l = NotOk) messages.

(** * Facts *)

Lemma requested_app t1 t2 : requested (t1 ++ t2) = requested t1 ++ requested t2.
Proof.
  induction t1 as [|e t1 IH]; [done|].
  destruct e; simpl; by rewrite ?IH.
Qed.

Lemma fetched_details_app t1 t2 :
  fetched_details (t1 ++ t2) = fetched_details t1 ++ fetched_details t2.
Proof.
  induction t1 as [|e t1 IH]; [done|].
  destruct e as [c|via u r|c]; simpl; try done.
  destruct u; try done. destruct r; try done.
  by rewrite IH, app_assoc.
Qed.

Lemma obind_returned {A B} (o : outcome A) (k : A → outcome B) b :
  obind o k = Returned b → ∃ a, o = Returned a ∧ k a = Returned b.
Proof. destruct o; simpl; [eauto | discriminate]. Qed.

(** ** The page windows *)

Lemma pages_needed_nonpos cutoff : cutoff ≤ 0 → pages_needed cutoff = 0%nat.
Proof.
  intros H. unfold pages_needed, POKE_PER_PAGE.
  assert ((cutoff + (10 - 1)) / 10 < 1) by (apply Z.div_lt_upper_bound; lia).
  lia.
Qed.

Lemma pages_needed_step cutoff :
  0 < cutoff → pages_needed cutoff = S (pages_needed (cutoff - POKE_PER_PAGE)).
Proof.
  intros H. unfold pages_needed, POKE_PER_PAGE.
  replace (cutoff + (10 - 1)) with ((cutoff - 10 + (10 - 1)) + 1 * 10) by lia.
  rewrite Z.div_add by lia.
  assert (0 ≤ (cutoff - 10 + (10 - 1)) / 10) by (apply Z.div_pos; lia).
  lia.
Qed.

Lemma offsets_visited_windows fuel offset nb_poke :
  nb_poke - offset ≤ Z.of_nat fuel →
  offsets_visited fuel offset nb_poke
    = windows_from offset (pages_needed (nb_poke - offset)).
Proof.
  revert offset. induction fuel as [|fuel IH]; intros offset Hfuel; simpl.
  - by rewrite pages_needed_nonpos by lia.
  - destruct (Z.ltb_spec offset nb_poke) as [Hlt|Hge].
    + rewrite (pages_needed_step (nb_poke - offset)) by lia. simpl.
      rewrite IH by (unfold POKE_PER_PAGE; lia).
      do 2 f_equal. f_equal. lia.
    + by rewrite pages_needed_nonpos by lia.
Qed.

Lemma offsets_visited_all nb_poke :
  offsets_visited (Z.to_nat nb_poke) 0 nb_poke = page_windows nb_poke.
Proof.
  unfold page_windows. rewrite offsets_visited_windows by lia.
  by rewrite Z.sub_0_r.
Qed.

(** The loops never run out of fuel: more of it changes nothing. *)
Lemma offsets_visited_fuel fuel nb_poke :
  nb_poke ≤ Z.of_nat fuel →
  offsets_visited fuel 0 nb_poke = offsets_visited (Z.to_nat nb_poke) 0 nb_poke.
Proof.
  intros H. by rewrite !offsets_visited_windows by lia.
Qed.

Lemma windows_from_length offset count : length (windows_from offset count) = count.
Proof. revert offset. induction count; intros; simpl; by rewrite ?IHcount. Qed.

Lemma windows_from_lookup offset count (i : nat) :
  (i < count)%nat →
  windows_from offset count !! i = Some (offset + POKE_PER_PAGE * Z.of_nat i).
Proof.
  revert offset i. induction count as [|n IH]; intros offset i Hi; [lia|].
  destruct i as [|i]; simpl.
  - f_equal. lia.
  - rewrite IH by lia. f_equal. lia.
Qed.

(** A window starts at a multiple of the page size below the cutoff. *)
Lemma page_windows_spec cutoff offset :
  offset ∈ page_windows cutoff ↔
  0 ≤ offset < cutoff ∧ offset mod POKE_PER_PAGE = 0.
Proof.
  unfold page_windows. rewrite list_elem_of_lookup. split.
  - intros [i Hi].
    assert (i < pages_needed cutoff)%nat as Hlt.
    { apply lookup_lt_Some in Hi. by rewrite windows_from_length in Hi. }
    rewrite windows_from_lookup in Hi by done. injection Hi as <-.
    unfold pages_needed, POKE_PER_PAGE in *.
    assert (0 < cutoff).
    { destruct (Z.le_gt_cases cutoff 0) as [Hle|]; [|done].
      pose proof (pages_needed_nonpos cutoff Hle) as Hz.
      unfold pages_needed, POKE_PER_PAGE in Hz. lia. }
    pose proof (Z.div_mod (cutoff + (10 - 1)) 10 ltac:(lia)).
    pose proof (Z.mod_pos_bound (cutoff + (10 - 1)) 10 ltac:(lia)).
    split; [lia|].
    rewrite Z.add_0_l, Z.mul_comm. by apply Z.mod_mul.
  - intros [[Hlo Hhi] Hmod].
    exists (Z.to_nat (offset / POKE_PER_PAGE)).
    unfold POKE_PER_PAGE in *.
    pose proof (Z.div_mod offset 10 ltac:(lia)).
    assert (0 ≤ offset / 10) by (apply Z.div_pos; lia).
    rewrite windows_from_lookup.
    + f_equal. unfold POKE_PER_PAGE. lia.
    + unfold pages_needed, POKE_PER_PAGE.
      assert (offset / 10 < (cutoff + (10 - 1)) / 10); [|lia].
      apply Z.div_lt_upper_bound; [lia|].
      pose proof (Z.div_mod (cutoff + (10 - 1)) 10 ltac:(lia)).
      pose proof (Z.mod_pos_bound (cutoff + (10 - 1)) 10 ltac:(lia)).
      lia.
Qed.

(** ** Gathered tasks *)

Section Settle.
Context {A : Type}.
Implicit Types (os : list (outcome A)) (g : gathering A).


Lemma quiet_start os :
  quiet os [] (mkGathering (replicate (length os) None) None).
Proof.
  split_and!; [done|cbn [finished]; by rewrite length_replicate|].
  intros i Hi. cbn [finished]. rewrite lookup_replicate_2 by done.
  by rewrite decide_False by apply not_elem_of_nil.
Qed.

Lemma quiet_settle_at os done g i a :
  quiet os done g → os !! i = Some (Returned a) →
  quiet os (i :: done) (settle_at os i g).
Proof.
  intros (Hf & Hlen & Hlook) Hi. unfold settle_at. rewrite Hi.
  unfold finish. cbn [finished first_exception]. rewrite Hf.
  unfold quiet. cbn [finished first_exception].
  split_and!; [done|by rewrite length_insert|].
  intros j Hj. destruct (decide (j = i)) as [->|Hne].
  - rewrite list_lookup_insert_eq by lia.
    rewrite decide_True by apply list_elem_of_here. by rewrite Hi.
  - rewrite list_lookup_insert_ne by done. rewrite Hlook by done.
    f_equal. destruct (decide (j ∈ done)) as [Hin|Hnin].
    + rewrite decide_True; [done|]. by apply list_elem_of_further.
    + rewrite decide_False; [done|]. intros Hin.
      apply elem_of_cons in Hin as [?|?]; done.
Qed.

Lemma all_returned_lookup os (l : list A) i :
  comprehension (λ o, o) os = Returned l →
  (i < length os)%nat → ∃ a, os !! i = Some (Returned a) ∧ l !! i = Some a.
Proof.
  revert l i. induction os as [|o os IH]; intros l i Hl Hi; cbn in *; [lia|].
  destruct o as [a|e]; cbn in Hl; [|discriminate].
  destruct (comprehension (λ o, o) os) as [l'|] eqn:Hl'; cbn in Hl; [|discriminate].
  injection Hl as <-. destruct i as [|i]; cbn.
  - eauto.
  - apply IH; [done|lia].
Qed.

Lemma all_returned_length os (l : list A) :
  comprehension (λ o, o) os = Returned l → length l = length os.
Proof.
  revert l. induction os as [|o os IH]; intros l Hl; cbn in *.
  - by injection Hl as <-.
  - destruct o as [a|e]; cbn in Hl; [|discriminate].
    destruct (comprehension (λ o, o) os) as [l'|] eqn:Hl'; cbn in Hl; [|discriminate].
    injection Hl as <-. cbn. by rewrite (IH l').
Qed.

Lemma quiet_foldl_settle_at os (l : list A) order done g :
  comprehension (λ o, o) os = Returned l →
  (∀ i, i ∈ order → (i < length os)%nat) →
  quiet os done g →
  quiet os (reverse order ++ done) (foldl (λ g i, settle_at os i g) g order).
Proof.
  intros Hl. revert done g.
  induction order as [|i order IH]; intros done g Hrange Hq; cbn [foldl].
  - done.
  - destruct (all_returned_lookup os l i Hl) as (a & Hi & _).
    { apply Hrange, list_elem_of_here. }
    rewrite reverse_cons, <- app_assoc. cbn [app]. apply IH.
    + intros j Hj. apply Hrange. by apply list_elem_of_further.
    + by eapply quiet_settle_at.
Qed.

Lemma quiet_foldl_settle_unless os (l : list A) order done g :
  comprehension (λ o, o) os = Returned l →
  (∀ i, i ∈ order → (i < length os)%nat) →
  quiet os done g →
  quiet os (reverse order ++ done)
    (foldl (λ g i, settle_unless_raised os i g) g order).
Proof.
  intros Hl. revert done g.
  induction order as [|i order IH]; intros done g Hrange Hq; cbn [foldl].
  - done.
  - destruct (all_returned_lookup os l i Hl) as (a & Hi & _).
    { apply Hrange, list_elem_of_here. }
    rewrite reverse_cons, <- app_assoc. cbn [app]. apply IH.
    + intros j Hj. apply Hrange. by apply list_elem_of_further.
    + unfold settle_unless_raised. destruct Hq as (Hf & Hq). rewrite Hf.
      eapply quiet_settle_at; [|done]. by split.
Qed.

Lemma resumed_first_range completion n i :
  i ∈ resumed_first completion n → (i < n)%nat.
Proof.
  unfold resumed_first. rewrite elem_of_remove_dups.
  intros Hin. by apply list_elem_of_filter in Hin as [? _].
Qed.

Lemma resumed_last_range completion n i :
  i ∈ resumed_last completion n → (i < n)%nat.
Proof.
  unfold resumed_last. intros Hin.
  apply list_elem_of_filter in Hin as [_ Hin].
  apply elem_of_seq in Hin. lia.
Qed.

Lemma resumed_all completion n i :
  (i < n)%nat → i ∈ resumed_first completion n ∨ i ∈ resumed_last completion n.
Proof.
  intros Hi. destruct (decide (i ∈ resumed_first completion n)) as [|Hnin];
    [by left|right].
  unfold resumed_last. apply list_elem_of_filter. split; [done|].
  apply elem_of_seq. lia.
Qed.

Lemma results_of_all (l : list A) g :
  finished g = map (λ a, Some (Returned a)) l → results_of g = l.
Proof.
  unfold results_of. intros ->. induction l as [|a l IH]; [done|].
  cbn. by rewrite IH.
Qed.

(** When every task returns, [gather] returns their results in submission
    order, whatever the completion order. *)
Lemma settle_returned completion os (l : list A) :
  comprehension (λ o, o) os = Returned l → settle completion os = Returned l.
Proof.
  intros Hl. unfold settle, settled.
  pose proof (quiet_foldl_settle_at os l (resumed_first completion (length os))
                [] _ Hl (resumed_first_range _ _) (quiet_start os)) as Hq1.
  pose proof (quiet_foldl_settle_unless os l (resumed_last completion (length os))
                _ _ Hl (resumed_last_range _ _) Hq1) as (Hf & Hlen & Hlook).
  rewrite Hf. f_equal. apply results_of_all.
  apply list_eq. intros i.
  destruct (decide (i < length os)%nat) as [Hi|Hi].
  - rewrite Hlook by done.
    destruct (all_returned_lookup os l i Hl Hi) as (a & Hos & Hli).
    rewrite list_lookup_fmap, Hli. cbn.
    rewrite decide_True; [by rewrite Hos|].
    rewrite !app_nil_r, elem_of_app, !elem_of_reverse.
    destruct (resumed_all completion (length os) i Hi); [by right|by left].
  - rewrite !lookup_ge_None_2; [done| |].
    + rewrite length_map, (all_returned_length os l Hl). lia.
    + rewrite Hlen. lia.
Qed.

Lemma finish_raised i (o : outcome A) g :
  first_exception (finish i o g) = None →
  first_exception g = None ∧ ∃ a, o = Returned a.
Proof.
  unfold finish. cbn [first_exception].
  destruct (first_exception g); [done|].
  destruct o; [eauto|done].
Qed.

Lemma foldl_settle_at_none os order g :
  first_exception (foldl (λ g i, settle_at os i g) g order) = None →
  first_exception g = None
  ∧ ∀ i, i ∈ order → (i < length os)%nat → ∃ a, os !! i = Some (Returned a).
Proof.
  revert g. induction order as [|i order IH]; intros g Hnone; cbn [foldl] in *.
  - split; [done|]. by intros i ?%elem_of_nil.
  - apply IH in Hnone as [Hg Hrest]. unfold settle_at in Hg.
    destruct (os !! i) as [o|] eqn:Hi.
    + apply finish_raised in Hg as [Hg (a & ->)]. split; [done|].
      intros j Hj Hlt. apply elem_of_cons in Hj as [->|Hj]; eauto.
    + split; [done|]. intros j Hj Hlt.
      apply elem_of_cons in Hj as [->|Hj]; [|eauto].
      apply lookup_ge_None in Hi. lia.
Qed.

Lemma foldl_settle_unless_none os order g :
  first_exception (foldl (λ g i, settle_unless_raised os i g) g order) = None →
  first_exception g = None
  ∧ ∀ i, i ∈ order → (i < length os)%nat → ∃ a, os !! i = Some (Returned a).
Proof.
  revert g. induction order as [|i order IH]; intros g Hnone; cbn [foldl] in *.
  - split; [done|]. by intros i ?%elem_of_nil.
  - apply IH in Hnone as [Hg Hrest]. unfold settle_unless_raised in Hg.
    destruct (first_exception g) eqn:Hfg; [congruence|].
    unfold settle_at in Hg.
    destruct (os !! i) as [o|] eqn:Hi.
    + apply finish_raised in Hg as [_ (a & ->)]. split; [done|].
      intros j Hj Hlt. apply elem_of_cons in Hj as [->|Hj]; eauto.
    + split; [done|]. intros j Hj Hlt.
      apply elem_of_cons in Hj as [->|Hj]; [|eauto].
      apply lookup_ge_None in Hi. lia.
Qed.

Lemma comprehension_all_returned os :
  (∀ i, (i < length os)%nat → ∃ a, os !! i = Some (Returned a)) →
  ∃ l, comprehension (λ o, o) os = Returned l.
Proof.
  induction os as [|o os IH]; intros Hall; cbn.
  - by exists [].
  - destruct (Hall 0%nat) as (a & Ha); [cbn; lia|]. cbn in Ha. injection Ha as ->.
    destruct IH as (l & ->).
    { intros i Hi. apply (Hall (S i)). cbn. lia. }
    by exists (a :: l).
Qed.

(** [gather] returns exactly when every task returns. *)
Lemma settle_agrees completion os :
  returned (settle completion os) = returned (comprehension (λ o, o) os).
Proof.
  destruct (comprehension (λ o, o) os) as [l|e] eqn:Hl.
  - by rewrite (settle_returned completion os l Hl).
  - unfold settle.
    destruct (first_exception (settled completion os)) eqn:Hf; [done|].
    exfalso. unfold settled in Hf.
    apply foldl_settle_unless_none in Hf as [Hf Hlast].
    apply foldl_settle_at_none in Hf as [_ Hfirst].
    destruct (comprehension_all_returned os) as (l & Hl').
    { intros i Hi. destruct (resumed_all completion (length os) i Hi); eauto. }
    congruence.
Qed.

End Settle.

(** ** One request *)

Section Runs.

Variable http : list Url → Url → outcome Response.
Variable timing : list Url → list nat.

Ltac run_fetcher :=
  unfold bind, ret, lift, print, client_get, requests_get, emit,
    page_result, detail_result; simpl;
  match goal with
  | |- context [http ?h ?u] => destruct (http h u) as [response|e]; simpl
  end;
  [case_bool_decide; simpl; rewrite <- ?app_assoc; simpl;
   [reflexivity
   | try (match goal with
          | |- context [content ?r] => destruct (content r)
          end; reflexivity)]
  | reflexivity].

Lemma get_pokemon_page_async_run c u w :
  get_pokemon_page_async http c u w =
    (page_result http (requested (trace w)) u,
     mkWorld (clients w)
       (trace w ++ [Got (Some c) u (http (requested (trace w)) u)])
       (stdout w ++ RetrievingUrl u :: diagnostics (http (requested (trace w)) u))).
Proof. unfold get_pokemon_page_async. run_fetcher. Qed.

Lemma get_pokemon_page_sync_run u w :
  get_pokemon_page_sync http u w =
    (page_result http (requested (trace w)) u,
     mkWorld (clients w)
       (trace w ++ [Got None u (http (requested (trace w)) u)])
       (stdout w ++ RetrievingUrl u :: diagnostics (http (requested (trace w)) u))).
Proof. unfold get_pokemon_page_sync. run_fetcher. Qed.

Lemma get_pokemon_details_async_run c u w :
  get_pokemon_details_async http c u w =
    (detail_result http (requested (trace w)) u,
     mkWorld (clients w)
       (trace w ++ [Got (Some c) u (http (requested (trace w)) u)])
       (stdout w ++ RetrievingDetails u :: diagnostics (http (requested (trace w)) u))).
Proof. unfold get_pokemon_details_async. run_fetcher. Qed.

Lemma get_pokemon_details_sync_run u w :
  get_pokemon_details_sync http u w =
    (detail_result http (requested (trace w)) u,
     mkWorld (clients w)
       (trace w ++ [Got None u (http (requested (trace w)) u)])
       (stdout w ++ RetrievingDetails u :: diagnostics (http (requested (trace w)) u))).
Proof. unfold get_pokemon_details_sync. run_fetcher. Qed.

Lemma save_run pokemons poke_detail w :
  fst (save pokemons poke_detail w) = store pokemons poke_detail
  ∧ trace (snd (save pokemons poke_detail w)) = trace w
  ∧ clients (snd (save pokemons poke_detail w)) = clients w.
Proof.
  unfold save, store, key_of, bind, ret, lift, print. simpl.
  destruct (subscript poke_detail "name") as [name|e]; simpl; [|done].
  destruct (hashable name); simpl; done.
Qed.

Lemma save_all_run details pokemons w :
  fst (save_all details pokemons w) = store_all details pokemons
  ∧ trace (snd (save_all details pokemons w)) = trace w
  ∧ clients (snd (save_all details pokemons w)) = clients w.
Proof.
  revert pokemons w. induction details as [|d rest IH]; intros pokemons w; [done|].
  simpl. unfold bind.
  destruct (save_run pokemons d w) as (Hr & Ht & Hc).
  destruct (save pokemons d w) as [[m|e] w1]; simpl in *; rewrite <- Hr; simpl.
  - destruct (IH m w1) as (-> & -> & ->). by rewrite Ht, Hc.
  - by rewrite Ht, Hc.
Qed.

(** ** Requests gathered, requests in a loop *)

Lemma page_async_fetcher c :
  fetcher http (Some c) (get_pokemon_page_async http c) (page_result http).
Proof. intros u w. by rewrite get_pokemon_page_async_run. Qed.

Lemma page_sync_fetcher :
  fetcher http None (get_pokemon_page_sync http) (page_result http).
Proof. intros u w. by rewrite get_pokemon_page_sync_run. Qed.

Lemma details_async_fetcher c :
  fetcher http (Some c) (get_pokemon_details_async http c) (detail_result http).
Proof. intros u w. by rewrite get_pokemon_details_async_run. Qed.

Lemma details_sync_fetcher :
  fetcher http None (get_pokemon_details_sync http) (detail_result http).
Proof. intros u w. by rewrite get_pokemon_details_sync_run. Qed.

Lemma requested_exchanges via history urls :
  requested (exchanges http via history urls) = urls.
Proof.
  revert history. induction urls as [|u rest IH]; intros history; simpl; [done|].
  by rewrite IH.
Qed.

Lemma exchanges_app via history urls1 urls2 :
  exchanges http via history (urls1 ++ urls2)
    = exchanges http via history urls1
        ++ exchanges http via (history ++ urls1) urls2.
Proof.
  revert history. induction urls1 as [|u rest IH]; intros history; simpl.
  - by rewrite app_nil_r.
  - by rewrite IH, <- app_assoc.
Qed.

(** A coroutine awaited alone is the fetcher itself. *)
Lemma await_page_coroutine c u w :
  await (page_coroutine http c u) w = get_pokemon_page_async http c u w.
Proof.
  unfold await, page_coroutine, get_pokemon_page_async, bind. cbn [launch land].
  destruct (print (RetrievingUrl u) w) as [[[]|e] w1]; [|done].
  by destruct (client_get http c u w1) as [[response|e] w2].
Qed.

Lemma await_details_coroutine c u w :
  await (details_coroutine http c u) w = get_pokemon_details_async http c u w.
Proof.
  unfold await, details_coroutine, get_pokemon_details_async, bind.
  cbn [launch land].
  destruct (print (RetrievingDetails u) w) as [[[]|e] w1]; [|done].
  by destruct (client_get http c u w1) as [[response|e] w2].
Qed.

Lemma page_coroutine_launching c :
  launching http (Some c) (page_coroutine http c) page_landing.
Proof.
  intros u. split.
  - intros w. by unfold page_coroutine, bind, print, client_get, emit.
  - intros response w.
    unfold page_coroutine, page_landing, bind, ret, lift, print. cbn [land].
    case_bool_decide; [done|].
    by destruct (loads (content response)).
Qed.

Lemma details_coroutine_launching c :
  launching http (Some c) (details_coroutine http c) detail_landing.
Proof.
  intros u. split.
  - intros w. by unfold details_coroutine, bind, print, client_get, emit.
  - intros response w.
    unfold details_coroutine, detail_landing, bind, ret, lift, print. cbn [land].
    by case_bool_decide.
Qed.

Lemma launch_all_run {A} via (f : Url → coroutine A) landing urls w :
  launching http via f landing →
  fst (launch_all (map f urls) w) = answers http (requested (trace w)) urls
  ∧ trace (snd (launch_all (map f urls) w))
      = trace w ++ exchanges http via (requested (trace w)) urls
  ∧ clients (snd (launch_all (map f urls) w)) = clients w.
Proof.
  intros Hf. revert w. induction urls as [|u rest IH]; intros w;
    cbn [map launch_all answers exchanges fst snd].
  - by rewrite app_nil_r.
  - destruct (Hf u) as [Hlaunch _]. destruct (Hlaunch w) as (Hr & Ht & Hc).
    destruct (launch (f u) w) as [r w1]. cbn [fst snd] in *.
    destruct (IH w1) as (Hrs & Hts & Hcs).
    destruct (launch_all (map f rest) w1) as [rs w2]. cbn [fst snd] in *.
    rewrite Hr, Hrs, Hts, Hcs, Ht, Hc, requested_app, <- app_assoc.
    cbn [requested app]. done.
Qed.

Lemma answers_length history urls :
  length (answers http history urls) = length urls.
Proof.
  revert history. induction urls as [|u rest IH]; intros history; cbn; [done|].
  by rewrite IH.
Qed.

Lemma resume_run {A} via (f : Url → coroutine A) landing urls rs i g w :
  launching http via f landing →
  length rs = length urls →
  let st := resume (zip (map f urls) rs) i (g, w) in
  fst st = settle_at (map (λ r, obind r landing) rs) i g
  ∧ trace (snd st) = trace w
  ∧ clients (snd st) = clients w.
Proof.
  intros Hf Hlen. unfold resume, settle_at. cbn [fst snd].
  rewrite lookup_zip_with, !list_lookup_fmap.
  destruct (rs !! i) as [r|] eqn:Hr.
  - destruct (lookup_lt_is_Some_2 urls i) as [u Hu].
    { rewrite <- Hlen. by eapply lookup_lt_Some. }
    rewrite Hu. cbn [fmap option_fmap option_map mbind option_bind].
    unfold bind, lift. destruct r as [response|e]; cbn [obind fst snd]; [|done].
    destruct (Hf u) as [_ Hland]. destruct (Hland response w) as (Ho & Ht & Hc).
    destruct (land (f u) response w) as [o w']. cbn [fst snd] in *.
    by rewrite Ho, Ht, Hc.
  - by destruct (urls !! i).
Qed.

Lemma foldl_resume_run {A} via (f : Url → coroutine A) landing urls rs order g w :
  launching http via f landing →
  length rs = length urls →
  let tasks := zip (map f urls) rs in
  let os := map (λ r, obind r landing) rs in
  let st := foldl (λ st i, resume tasks i st) (g, w) order in
  fst st = foldl (λ g i, settle_at os i g) g order
  ∧ trace (snd st) = trace w
  ∧ clients (snd st) = clients w.
Proof.
  intros Hf Hlen tasks os. revert g w.
  induction order as [|i order IH]; intros g w; cbn [foldl]; [done|].
  destruct (resume_run via f landing urls rs i g w Hf Hlen) as (Hg & Ht & Hc).
  fold tasks os in Hg, Ht, Hc.
  destruct (resume tasks i (g, w)) as [g1 w1]. cbn [fst snd] in *.
  destruct (IH g1 w1) as (Hg' & Ht' & Hc').
  by rewrite Hg', Ht', Hc', Hg, Ht, Hc.
Qed.

Lemma foldl_resume_unless_run {A} via (f : Url → coroutine A) landing urls rs
    order g w :
  launching http via f landing →
  length rs = length urls →
  let tasks := zip (map f urls) rs in
  let os := map (λ r, obind r landing) rs in
  let st := foldl (λ st i, resume_unless_raised tasks i st) (g, w) order in
  fst st = foldl (λ g i, settle_unless_raised os i g) g order
  ∧ trace (snd st) = trace w
  ∧ clients (snd st) = clients w.
Proof.
  intros Hf Hlen tasks os. revert g w.
  induction order as [|i order IH]; intros g w; cbn [foldl]; [done|].
  assert (fst (resume_unless_raised tasks i (g, w)) = settle_unless_raised os i g
          ∧ trace (snd (resume_unless_raised tasks i (g, w))) = trace w
          ∧ clients (snd (resume_unless_raised tasks i (g, w))) = clients w)
    as (Hg & Ht & Hc).
  { unfold resume_unless_raised, settle_unless_raised. cbn [fst].
    destruct (first_exception g); [done|].
    apply (resume_run via f landing urls rs i g w Hf Hlen). }
  destruct (resume_unless_raised tasks i (g, w)) as [g1 w1]. cbn [fst snd] in *.
  destruct (IH g1 w1) as (Hg' & Ht' & Hc').
  by rewrite Hg', Ht', Hc', Hg, Ht, Hc.
Qed.

(** Gathered coroutines send all their requests, in submission order,
    and settle as their outcomes and the completion order decide. *)
Lemma gather_run {A} via (f : Url → coroutine A) landing completion urls w :
  launching http via f landing →
  let run := gather completion (map f urls) w in
  fst run = settle completion (outcomes http landing (requested (trace w)) urls)
  ∧ trace (snd run) = trace w ++ exchanges http via (requested (trace w)) urls
  ∧ clients (snd run) = clients w.
Proof.
  intros Hf. unfold gather, settle, settled, outcomes. cbv zeta.
  destruct (launch_all_run via f landing urls w Hf) as (Hrs & Ht & Hc).
  destruct (launch_all (map f urls) w) as [rs w1]. cbn [fst snd] in *.
  assert (length rs = length urls) as Hlen by (by rewrite Hrs, answers_length).
  assert (length (zip (map f urls) rs) = length rs) as Hn.
  { rewrite length_zip_with, length_map. lia. }
  rewrite Hn, length_map, <- Hrs.
  destruct (foldl_resume_run via f landing urls rs
              (resumed_first completion (length rs))
              (mkGathering (replicate (length rs) None) None) w1 Hf Hlen)
    as (Hg1 & Ht1 & Hc1).
  cbv zeta in Hg1, Ht1, Hc1.
  destruct (foldl (λ st i, resume (zip (map f urls) rs) i st)
              (mkGathering (replicate (length rs) None) None, w1)
              (resumed_first completion (length rs))) as [g1 w2].
  cbn [fst snd] in *.
  destruct (foldl_resume_unless_run via f landing urls rs
              (resumed_last completion (length rs)) g1 w2 Hf Hlen)
    as (Hg2 & Ht2 & Hc2).
  cbv zeta in Hg2, Ht2, Hc2.
  destruct (foldl (λ st i, resume_unless_raised (zip (map f urls) rs) i st)
              (g1, w2) (resumed_last completion (length rs))) as [g2 w3].
  cbn [fst snd] in *.
  rewrite Hg2, Hg1, Ht2, Ht1, Hc2, Hc1, Ht, Hc. done.
Qed.

Lemma resumed_first_none completion : resumed_first completion 0 = [].
Proof.
  unfold resumed_first.
  replace (filter (λ i, (i < 0)%nat) completion) with (@nil nat); [done|].
  induction completion as [|i rest IH]; [done|].
  rewrite filter_cons. destruct (decide (i < 0)%nat); [lia|done].
Qed.

(** Gathering nothing returns the empty list and changes nothing. *)
Lemma gather_nil {A} completion w :
  gather completion (@nil (coroutine A)) w = (Returned [], w).
Proof.
  unfold gather. cbn [launch_all zip_with length].
  unfold resumed_last. rewrite resumed_first_none. done.
Qed.

Lemma in_order_outcomes {A} (landing : Response → outcome A) history urls :
  in_order (λ h u, obind (http h u) landing) history urls
    = comprehension (λ o, o) (outcomes http landing history urls).
Proof.
  unfold outcomes. revert history.
  induction urls as [|u rest IH]; intros history;
    cbn [in_order answers map comprehension]; [done|].
  by rewrite IH.
Qed.

(** Gathering returns exactly when the requests sent one after the other
    return, and then with the same results. *)
Lemma settle_in_order {A} (landing : Response → outcome A) completion history urls :
  returned (settle completion (outcomes http landing history urls))
    = returned (in_order (λ h u, obind (http h u) landing) history urls).
Proof. by rewrite in_order_outcomes, settle_agrees. Qed.

Lemma settle_pages completion history urls :
  returned (settle completion (outcomes http page_landing history urls))
    = returned (in_order (page_result http) history urls).
Proof. apply settle_in_order. Qed.

Lemma settle_details completion history urls :
  returned (settle completion (outcomes http detail_landing history urls))
    = returned (in_order (detail_result http) history urls).
Proof. apply settle_in_order. Qed.

(** ** The name listers *)

Lemma page_coroutines_visited fuel c offset nb_poke :
  page_coroutines http fuel c offset nb_poke
    = map (page_coroutine http c)
        (map page_url (offsets_visited fuel offset nb_poke)).
Proof.
  revert offset. induction fuel as [|fuel IH]; intros offset; simpl; [done|].
  destruct (offset <? nb_poke); simpl; [|done]. by rewrite IH.
Qed.

Lemma pages_loop_sync_run fuel offset nb_poke names w :
  let urls := map page_url (offsets_visited fuel offset nb_poke) in
  let run := pages_loop_sync http fuel offset nb_poke names w in
  fst run = obind (in_order (page_result http) (requested (trace w)) urls)
              (λ pages, Returned (names ++ concat pages))
  ∧ (∃ sent, sent `prefix_of` urls
       ∧ trace (snd run) = trace w ++ exchanges http None (requested (trace w)) sent
       ∧ (∀ l, fst run = Returned l → sent = urls))
  ∧ clients (snd run) = clients w.
Proof.
  revert offset names w.
  induction fuel as [|fuel IH]; intros offset names w; simpl.
  - rewrite app_nil_r. split_and!; [done| |done].
    exists []. by rewrite app_nil_r.
  - destruct (offset <? nb_poke); simpl.
    2:{ rewrite app_nil_r. split_and!; [done| |done].
        exists []. by rewrite app_nil_r. }
    unfold bind. rewrite get_pokemon_page_sync_run. fold (page_url offset).
    destruct (page_result http (requested (trace w)) (page_url offset))
      as [page|e]; simpl.
    + match goal with
      | |- context [pages_loop_sync _ _ _ _ _ ?w1] =>
          destruct (IH (offset + POKE_PER_PAGE) (names ++ page) w1)
            as (Hr & (sent & Hpre & Ht & Hall) & Hc)
      end.
      simpl in *. rewrite requested_app in *. simpl in *.
      split_and!.
      * rewrite Hr.
        destruct (in_order _ _ _); simpl; [|done].
        by rewrite <- app_assoc.
      * exists (page_url offset :: sent). split_and!.
        -- by apply prefix_cons.
        -- rewrite Ht, <- app_assoc. done.
        -- intros l Hl. f_equal. by eapply Hall.
      * done.
    + split_and!; [done| |done].
      exists [page_url offset]. split_and!.
      * apply prefix_cons, prefix_nil.
      * done.
      * discriminate.
Qed.

Lemma get_pokemon_names_async_run c max_pokemons w :
  let run := get_pokemon_names_async http timing c max_pokemons w in
  let history := requested (trace w) in
  fst run = names_gathered http timing history max_pokemons
  ∧ trace (snd run)
      = trace w ++ exchanges http (Some c) history
                     (Root :: pages_asked http history max_pokemons)
  ∧ clients (snd run) = clients w.
Proof.
  unfold get_pokemon_names_async, names_gathered, pages_asked, cutoff_of,
    bind, ret, lift, print, client_get, emit, gathered.
  cbn [fst snd trace clients stdout exchanges].
  destruct (http (requested (trace w)) Root) as [response|e];
    cbn [fst snd obind returned]; [|done].
  case_bool_decide; cbn [fst snd trace clients]; [done|].
  destruct (content response) as [json_obj|]; cbn [loads obind fst snd]; [|done].
  destruct (obind (nb_poke_of json_obj max_pokemons) as_int) as [nb_poke|e];
    cbn [obind returned fst snd]; [|done].
  rewrite page_coroutines_visited, offsets_visited_all.
  match goal with
  | |- context [gather ?completion (map ?f ?urls) ?w1] =>
      destruct (gather_run (Some c) f page_landing completion urls w1
                  (page_coroutine_launching c)) as (Hr & Ht & Hc);
      cbv zeta in Hr, Ht, Hc;
      destruct (gather completion (map f urls) w1) as [[pages|e] w2]
  end; cbn [fst snd trace clients] in *; rewrite requested_app in *;
    cbn [requested] in *; rewrite <- Hr, Ht, Hc, <- app_assoc; done.
Qed.

Lemma names_gathered_agrees history max_pokemons :
  returned (names_gathered http timing history max_pokemons)
    = returned (names_in_page_order http history max_pokemons).
Proof.
  unfold names_gathered, names_in_page_order.
  destruct (http history Root) as [response|]; cbn [obind]; [|done].
  case_bool_decide; [done|].
  destruct (loads (content response)) as [json_obj|]; cbn [obind]; [|done].
  destruct (obind (nb_poke_of json_obj max_pokemons) as_int) as [cutoff|];
    cbn [obind]; [|done].
  pose proof (settle_pages (timing (history ++ [Root])) (history ++ [Root])
                (map page_url (page_windows cutoff))) as Hp.
  destruct (settle _ _), (in_order _ _ _); cbn [obind returned] in *; congruence.
Qed.

(** When the pages requested one after the other all return, the
    concurrent lister returns the same names. *)
Lemma names_gathered_returned history max_pokemons names :
  names_in_page_order http history max_pokemons = Returned names →
  names_gathered http timing history max_pokemons = Returned names.
Proof.
  intros Hn. pose proof (names_gathered_agrees history max_pokemons) as Ha.
  rewrite Hn in Ha. destruct (names_gathered _ _ _ _); cbn in Ha; congruence.
Qed.

Lemma get_pokemon_names_sync_run max_pokemons w :
  let run := get_pokemon_names_sync http max_pokemons w in
  let history := requested (trace w) in
  fst run = names_in_page_order http history max_pokemons
  ∧ (∃ sent, sent `prefix_of` pages_asked http history max_pokemons
       ∧ trace (snd run) = trace w ++ exchanges http None history (Root :: sent)
       ∧ (∀ l, fst run = Returned l →
            sent = pages_asked http history max_pokemons))
  ∧ clients (snd run) = clients w.
Proof.
  unfold get_pokemon_names_sync, names_in_page_order, pages_asked, cutoff_of,
    bind, ret, lift, print, requests_get, emit. simpl.
  destruct (http (requested (trace w)) Root) as [response|e]; simpl.
  2:{ split_and!; [done| |done]. exists []. by split_and!. }
  case_bool_decide; simpl.
  { split_and!; [done| |done]. exists []. by split_and!. }
  destruct (content response) as [json_obj|]; simpl.
  2:{ split_and!; [done| |done]. exists []. by split_and!. }
  destruct (obind (nb_poke_of json_obj max_pokemons) as_int) as [nb_poke|e];
    simpl.
  2:{ split_and!; [done| |done]. exists []. by split_and!. }
  match goal with
  | |- context [pages_loop_sync _ ?fuel ?o ?nb ?acc ?w1] =>
      destruct (pages_loop_sync_run fuel o nb acc w1)
        as (Hr & (sent & Hpre & Ht & Hall) & Hc)
  end.
  rewrite offsets_visited_all in *.
  simpl in *; rewrite requested_app in *; simpl in *.
  split_and!.
  - rewrite Hr. done.
  - exists sent. split_and!; [done| |done].
    by rewrite Ht, <- app_assoc.
  - done.
Qed.

Lemma sent_in_turn_prefix {A} (fetch : list Url → Url → outcome A) history urls :
  sent_in_turn fetch history urls `prefix_of` urls.
Proof.
  revert history. induction urls as [|u rest IH]; intros history;
    cbn [sent_in_turn]; [done|].
  apply prefix_cons. destruct (fetch history u); [apply IH|apply prefix_nil].
Qed.

Lemma sent_in_turn_all {A} (fetch : list Url → Url → outcome A) history urls l :
  in_order fetch history urls = Returned l →
  sent_in_turn fetch history urls = urls.
Proof.
  revert history l. induction urls as [|u rest IH]; intros history l;
    cbn [sent_in_turn in_order]; [done|].
  destruct (fetch history u); cbn [obind]; [|done].
  destruct (in_order fetch (history ++ [u]) rest) as [l'|] eqn:Hrest;
    cbn [obind]; [|done].
  intros _. by rewrite (IH _ _ Hrest).
Qed.

(** The sequential loop sends the page requests one by one and stops
    after the first page whose fetch raises. *)
Lemma pages_loop_sync_sent fuel offset nb_poke names w :
  trace (snd (pages_loop_sync http fuel offset nb_poke names w))
    = trace w ++ exchanges http None (requested (trace w))
                   (sent_in_turn (page_result http) (requested (trace w))
                      (map page_url (offsets_visited fuel offset nb_poke))).
Proof.
  revert offset names w.
  induction fuel as [|fuel IH]; intros offset names w;
    cbn [pages_loop_sync offsets_visited].
  - cbn. by rewrite app_nil_r.
  - destruct (offset <? nb_poke).
    2:{ cbn. by rewrite app_nil_r. }
    unfold bind. rewrite get_pokemon_page_sync_run. fold (page_url offset).
    cbn [map sent_in_turn exchanges].
    destruct (page_result http (requested (trace w)) (page_url offset))
      as [page|e]; cbn [fst snd trace].
    + rewrite IH. cbn [trace]. rewrite requested_app. cbn [requested].
      by rewrite <- app_assoc.
    + done.
Qed.

Lemma get_pokemon_names_sync_sent max_pokemons w :
  let history := requested (trace w) in
  trace (snd (get_pokemon_names_sync http max_pokemons w))
    = trace w ++ exchanges http None history
                   (Root :: sent_in_turn (page_result http) (history ++ [Root])
                              (pages_asked http history max_pokemons)).
Proof.
  unfold get_pokemon_names_sync, pages_asked, cutoff_of,
    bind, ret, lift, print, requests_get, emit.
  cbn [fst snd trace clients stdout exchanges].
  destruct (http (requested (trace w)) Root) as [response|e];
    cbn [fst snd trace]; [|done].
  case_bool_decide; cbn [fst snd trace]; [done|].
  destruct (content response) as [json_obj|]; cbn [loads fst snd trace]; [|done].
  destruct (obind (nb_poke_of json_obj max_pokemons) as_int) as [nb_poke|e];
    cbn [returned fst snd trace]; [|done].
  rewrite pages_loop_sync_sent, offsets_visited_all. cbn [trace].
  rewrite requested_app. cbn [requested]. by rewrite <- app_assoc.
Qed.

(** ** The aggregators *)

Lemma details_loop_sync_run names pokemons w :
  let urls := map Detail names in
  let run := details_loop_sync http names pokemons w in
  returned (fst run)
    = returned (obind (in_order (detail_result http) (requested (trace w)) urls)
                  (λ details, store_all details pokemons))
  ∧ (∃ sent, sent `prefix_of` urls
       ∧ trace (snd run) = trace w ++ exchanges http None (requested (trace w)) sent
       ∧ (∀ m, fst run = Returned m → sent = urls))
  ∧ clients (snd run) = clients w.
Proof.
  revert pokemons w.
  induction names as [|name rest IH]; intros pokemons w; simpl.
  - split_and!; [done| |done].
    exists []. by rewrite app_nil_r.
  - unfold bind. rewrite get_pokemon_details_sync_run.
    destruct (detail_result http (requested (trace w)) (Detail name))
      as [d|e]; simpl.
    2:{ split_and!; [done| |done].
        exists [Detail name]. split_and!; [|done|discriminate].
        apply prefix_cons, prefix_nil. }
    match goal with
    | |- context [save _ _ ?w1] =>
        destruct (save_run pokemons d w1) as (Hs & Hst & Hsc);
        destruct (save pokemons d w1) as [[m1|e] w2]
    end; simpl in *.
    + destruct (IH m1 w2) as (Hr & (sent & Hpre & Ht & Hall) & Hc).
      rewrite Hst in *. simpl in *. rewrite requested_app in *. simpl in *.
      split_and!.
      * rewrite Hr.
        destruct (in_order _ _ _); simpl; [|done].
        by rewrite <- Hs.
      * exists (Detail name :: sent). split_and!.
        -- by apply prefix_cons.
        -- by rewrite Ht, <- app_assoc.
        -- intros m Hm. f_equal. by eapply Hall.
      * by rewrite Hc, Hsc.
    + split_and!.
      * destruct (in_order _ _ _); simpl; [|done].
        by rewrite <- Hs.
      * exists [Detail name]. split_and!; [|by rewrite Hst|discriminate].
        apply prefix_cons, prefix_nil.
      * by rewrite Hsc.
Qed.

Lemma get_pokemons_async_run number w :
  let run := get_pokemons_async http timing number w in
  let history := requested (trace w) in
  fst run = aggregated_gathered http timing history number
  ∧ trace (snd run)
      = trace w ++ Opened (clients w)
          :: exchanges http (Some (clients w)) history
               (requests_asked http history number)
          ++ [Closed (clients w)]
  ∧ clients (snd run) = S (clients w).
Proof.
  unfold get_pokemons_async, with_client, aggregated_gathered, requests_asked,
    details_asked, bind, emit, gathered.
  set (c := clients w).
  set (w0 := mkWorld (S c) (trace w ++ [Opened c]) (stdout w)).
  assert (requested (trace w0) = requested (trace w)) as Hw0.
  { subst w0. cbn [trace]. rewrite requested_app. cbn [requested].
    by rewrite app_nil_r. }
  destruct (get_pokemon_names_async_run c (Some number) w0) as (Hr & Ht & Hc).
  cbv zeta in Hr, Ht, Hc. rewrite Hw0 in Hr, Ht.
  pose proof (names_gathered_agrees (requested (trace w)) (Some number)) as Hagree.
  destruct (get_pokemon_names_async http timing c (Some number) w0)
    as [[names|e] w1]; cbn [fst snd] in *; rewrite <- Hr in *;
    cbn [obind returned] in *.
  - assert (names_in_page_order http (requested (trace w)) (Some number)
            = Returned names) as Hnames.
    { destruct (names_in_page_order _ _ _); cbn [returned] in Hagree; congruence. }
    rewrite Hnames.
    assert (requested (trace w1)
            = requested (trace w)
                ++ Root :: pages_asked http (requested (trace w)) (Some number))
      as Hw1.
    { rewrite Ht. subst w0. cbn [trace]. rewrite !requested_app.
      cbn [requested]. by rewrite requested_exchanges, app_nil_r. }
    rewrite <- (map_map Detail (details_coroutine http c) names).
    destruct (gather_run (Some c) (details_coroutine http c) detail_landing
                (timing (requested (trace w1))) (map Detail names) w1
                (details_coroutine_launching c)) as (Hd & Hdt & Hdc).
    cbv zeta in Hd, Hdt, Hdc. rewrite Hw1 in Hd, Hdt, Hdc. rewrite Hw1.
    destruct (gather _ _ w1) as [[details|e] w2]; cbn [fst snd] in *;
      rewrite <- Hd; cbn [obind].
    + destruct (save_all_run details ∅ w2) as (Hs & Hst & Hsc).
      destruct (save_all details ∅ w2) as [r w3]; cbn [fst snd trace clients] in *.
      rewrite Hs, Hst, Hsc, Hdt, Hdc, Hc.
      split_and!; [done| |done].
      rewrite Ht. subst w0. cbn [trace exchanges].
      rewrite exchanges_app, <- !app_assoc. cbn [app].
      by rewrite <- ?app_assoc.
    + cbn [trace clients]. rewrite Hdt, Hdc, Hc.
      split_and!; [done| |done].
      rewrite Ht. subst w0. cbn [trace exchanges].
      rewrite exchanges_app, <- !app_assoc. cbn [app].
      by rewrite <- ?app_assoc.
  - assert (∃ e', names_in_page_order http (requested (trace w)) (Some number)
                  = Raised e') as [e' ->].
    { destruct (names_in_page_order _ _ _); cbn [returned] in Hagree;
        [congruence|eauto]. }
    cbn [trace clients]. rewrite Ht, Hc, app_nil_r.
    split_and!; [done| |done].
    subst w0. cbn [trace]. by rewrite <- !app_assoc.
Qed.

Lemma aggregated_gathered_agrees history number :
  returned (aggregated_gathered http timing history number)
    = returned (aggregated http history number).
Proof.
  unfold aggregated_gathered, aggregated.
  pose proof (names_gathered_agrees history (Some number)) as Hn.
  destruct (names_gathered http timing history (Some number)) as [names|],
    (names_in_page_order http history (Some number)) as [names'|];
    cbn [obind returned] in *; try congruence.
  injection Hn as ->.
  pose proof (settle_details
                (timing (history ++ Root :: pages_asked http history (Some number)))
                (history ++ Root :: pages_asked http history (Some number))
                (map Detail names')) as Hd.
  destruct (settle _ _), (in_order _ _ _); cbn [obind returned] in *; congruence.
Qed.

(** When the listing and the detail requests, sent one after the other,
    all return, the concurrent aggregator ends as the saving of the
    records ends. *)
Lemma aggregated_gathered_stored history number names details :
  names_in_page_order http history (Some number) = Returned names →
  in_order (detail_result http)
    (history ++ Root :: pages_asked http history (Some number))
    (map Detail names) = Returned details →
  aggregated_gathered http timing history number = store_all details ∅.
Proof.
  intros Hn Hd. unfold aggregated_gathered.
  rewrite (names_gathered_returned _ _ _ Hn). cbn [obind].
  pose proof (settle_details
                (timing (history ++ Root :: pages_asked http history (Some number)))
                (history ++ Root :: pages_asked http history (Some number))
                (map Detail names)) as Hs.
  rewrite Hd in Hs. destruct (settle _ _); cbn [returned obind] in *; congruence.
Qed.

Lemma aggregated_gathered_returned history number result :
  aggregated_gathered http timing history number = Returned result ↔
  aggregated http history number = Returned result.
Proof.
  pose proof (aggregated_gathered_agrees history number) as Ha.
  split; intros H; rewrite H in Ha;
    [destruct (aggregated _ _ _)|destruct (aggregated_gathered _ _ _ _)];
    cbn [returned] in Ha; congruence.
Qed.

Lemma get_pokemons_sync_run number w :
  let run := get_pokemons_sync http number w in
  let history := requested (trace w) in
  returned (fst run) = returned (aggregated http history number)
  ∧ (∃ sent, sent `prefix_of` requests_asked http history number
       ∧ trace (snd run) = trace w ++ exchanges http None history sent
       ∧ (∀ m, fst run = Returned m →
            sent = requests_asked http history number))
  ∧ clients (snd run) = clients w.
Proof.
  unfold get_pokemons_sync, aggregated, requests_asked, details_asked, bind.
  destruct (get_pokemon_names_sync_run (Some number) w)
    as (Hr & (sent & Hpre & Ht & Hall) & Hc).
  destruct (get_pokemon_names_sync http (Some number) w)
    as [[names|e] w1]; simpl in *; rewrite <- Hr; simpl.
  - rewrite (Hall names eq_refl) in *. clear Hall Hpre.
    destruct (details_loop_sync_run names ∅ w1)
      as (Hd & (sent_d & Hpre_d & Htd & Hall_d) & Hcd).
    assert (requested (trace w1)
            = requested (trace w)
                ++ Root :: pages_asked http (requested (trace w)) (Some number))
      as Hw1.
    { rewrite Ht, requested_app. simpl. by rewrite requested_exchanges. }
    rewrite Hw1 in *. simpl in *.
    split_and!; [done| |by rewrite Hcd].
    exists (Root :: pages_asked http (requested (trace w)) (Some number) ++ sent_d).
    split_and!.
    + by apply prefix_cons, prefix_app.
    + rewrite Htd, Ht. simpl. rewrite exchanges_app, <- !app_assoc. simpl.
      by rewrite <- ?app_assoc.
    + intros m Hm. by rewrite (Hall_d m Hm).
  - split_and!; [done| |done].
    exists (Root :: sent). split_and!; [|done|discriminate].
    rewrite app_nil_r. by apply prefix_cons.
Qed.

End Runs.

(** * The claims *)

(** What a coroutine run in a fresh client returns. *)
Lemma with_client_fst {A} (body : nat → M A) w :
  fst (with_client body w)
    = fst (body (clients w)
             (mkWorld (S (clients w)) (trace w ++ [Opened (clients w)]) (stdout w))).
Proof.
  unfold with_client, emit. cbn [fst snd clients trace stdout].
  by destruct (body _ _) as [o w1].
Qed.

(** C1.  The concurrent and the sequential pipeline agree.  For every
    transport, every completion order of the gathered requests, every
    request history and every argument, the two name listers return the
    same name list, or neither returns one; the list is the concatenation
    of the page names in page order, which is the outcome of the
    sequential lister; and the two aggregators return the same mapping,
    or neither returns one.  On the three mocked pages both listers give
    "a" "b" "c" "d" "e"; on the listing of three items both aggregators
    give the mapping of "a", "b" and "c" to their records, for the number
    3 and for the default number. *)
Theorem C1_pipelines_agree :
  (∀ http timing c max_pokemons w,
     returned (fst (get_pokemon_names_async http timing c max_pokemons w))
       = returned (fst (get_pokemon_names_sync http max_pokemons w))
     ∧ fst (get_pokemon_names_sync http max_pokemons w)
       = names_in_page_order http (requested (trace w)) max_pokemons)
  ∧ (∀ http timing number w,
       returned (fst (get_pokemons_async http timing number w))
         = returned (fst (get_pokemons_sync http number w)))
  ∧ (∀ timing,
       fst (with_client (λ c, get_pokemon_names_async three_pages timing c None)
              initial)
         = Returned [JStr "a"; JStr "b"; JStr "c"; JStr "d"; JStr "e"])
  ∧ fst (get_pokemon_names_sync three_pages None initial)
      = Returned [JStr "a"; JStr "b"; JStr "c"; JStr "d"; JStr "e"]
  ∧ (∀ timing, fst (get_pokemons_async three_pokemons timing 3 initial)
               = Returned abc)
  ∧ fst (get_pokemons_sync three_pokemons 3 initial) = Returned abc
  ∧ (∀ timing, fst (get_pokemons_async three_pokemons timing default_number initial)
               = Returned abc)
  ∧ fst (get_pokemons_sync three_pokemons default_number initial) = Returned abc.
Proof.
  split_and!.
  - intros http timing c max_pokemons w.
    destruct (get_pokemon_names_async_run http timing c max_pokemons w) as (-> & _).
    destruct (get_pokemon_names_sync_run http max_pokemons w) as (-> & _).
    split; [apply names_gathered_agrees|done].
  - intros http timing number w.
    destruct (get_pokemons_async_run http timing number w) as (-> & _).
    destruct (get_pokemons_sync_run http number w) as (-> & _).
    apply aggregated_gathered_agrees.
  - intros timing. rewrite with_client_fst.
    match goal with
    | |- fst (get_pokemon_names_async ?h _ ?c ?m ?w) = _ =>
        destruct (get_pokemon_names_async_run h timing c m w) as (-> & _)
    end.
    apply names_gathered_returned. vm_compute. reflexivity.
  - vm_compute. reflexivity.
  - intros timing.
    destruct (get_pokemons_async_run three_pokemons timing 3 initial) as (-> & _).
    apply aggregated_gathered_returned. vm_compute. reflexivity.
  - vm_compute. reflexivity.
  - intros timing.
    destruct (get_pokemons_async_run three_pokemons timing default_number initial)
      as (-> & _).
    apply aggregated_gathered_returned. vm_compute. reflexivity.
  - vm_compute. reflexivity.
Qed.

Lemma in_order_full_pages http history offsets :
  (∀ h offset, full_page (http h (page_url offset))) →
  ∃ pages,
    in_order (page_result http) history (map page_url offsets) = Returned pages
    ∧ length (concat pages) = (length offsets * Z.to_nat POKE_PER_PAGE)%nat.
Proof.
  intros Hfull. revert history.
  induction offsets as [|o rest IH]; intros history; simpl.
  - by exists [].
  - destruct (Hfull history o) as (response & json_obj & names & Hr & Hs & Hc & Hn & Hl).
    destruct (IH (history ++ [page_url o])) as (pages & Hp & Hlen).
    exists (names :: pages). unfold page_result at 1.
    rewrite Hr. simpl. rewrite bool_decide_false by (rewrite Hs; lia).
    rewrite Hc. simpl. rewrite Hn, Hp. simpl.
    split; [done|]. rewrite length_app, Hlen, Hl.
    unfold POKE_PER_PAGE. change (Z.to_nat 10) with 10%nat. lia.
Qed.

Lemma cutoff_of_root (root : outcome Response) response json_obj max_pokemons N :
  root = Returned response →
  status_code response = 200 →
  content response = Some json_obj →
  obind (nb_poke_of json_obj max_pokemons) as_int = Returned N →
  cutoff_of root max_pokemons = Some N.
Proof.
  intros -> Hs Hc HN. unfold cutoff_of.
  rewrite bool_decide_false by (rewrite Hs; lia).
  by rewrite Hc, HN.
Qed.

Lemma pages_needed_aligned N :
  0 < N → N mod POKE_PER_PAGE = 0 →
  POKE_PER_PAGE * Z.of_nat (pages_needed N) = N.
Proof.
  unfold pages_needed, POKE_PER_PAGE. intros Hpos Hmod.
  assert (0 ≤ (N + (10 - 1)) / 10) by (apply Z.div_pos; lia).
  rewrite Z2Nat.id by done.
  pose proof (Z.div_mod N 10 ltac:(lia)) as HN. rewrite Hmod in HN.
  replace (N + (10 - 1)) with (9 + (N / 10) * 10) by lia.
  rewrite Z.div_add by lia. change (9 / 10) with 0. lia.
Qed.

Lemma pages_needed_overshoot N :
  N mod POKE_PER_PAGE ≠ 0 → N < POKE_PER_PAGE * Z.of_nat (pages_needed N).
Proof.
  unfold pages_needed, POKE_PER_PAGE. intros Hmod.
  destruct (Z.le_gt_cases N 0) as [Hle|Hpos].
  - assert (N ≠ 0) by (intros ->; by apply Hmod). lia.
  - assert (0 ≤ (N + (10 - 1)) / 10) by (apply Z.div_pos; lia).
    rewrite Z2Nat.id by done.
    pose proof (Z.div_mod N 10 ltac:(lia)) as HN.
    pose proof (Z.mod_pos_bound N 10 ltac:(lia)) as Hb.
    assert (N / 10 + 1 ≤ (N + (10 - 1)) / 10); [|lia].
    apply Z.div_le_lower_bound; lia.
Qed.

(** C2.  When the cutoff is N (supplied by the caller, or read from the
    count of the root answer) and every page answer holds exactly ten
    names, both name listers ask for the ceil(N/10) pages that cover N and
    return their names: ten times that many.  That is exactly N names when
    N is a positive multiple of ten, and more than N names when N is not a
    multiple of ten: the last page is not trimmed. *)
Theorem C2_names_cover_target http timing c max_pokemons w response json_obj N :
  http (requested (trace w)) Root = Returned response →
  status_code response = 200 →
  content response = Some json_obj →
  (max_pokemons = Some N
   ∨ max_pokemons = None ∧ subscript json_obj "count" = Returned (JNum N)) →
  (∀ history offset, full_page (http history (page_url offset))) →
  let run_async := get_pokemon_names_async http timing c max_pokemons w in
  let run_sync := get_pokemon_names_sync http max_pokemons w in
  ∃ names,
    fst run_async = Returned names
    ∧ fst run_sync = Returned names
    ∧ requested (trace (snd run_async))
        = requested (trace w) ++ Root :: map page_url (page_windows N)
    ∧ requested (trace (snd run_sync))
        = requested (trace w) ++ Root :: map page_url (page_windows N)
    ∧ length (page_windows N) = Z.to_nat ((N + 9) / 10)
    ∧ Z.of_nat (length names) = POKE_PER_PAGE * Z.of_nat (length (page_windows N))
    ∧ (0 < N → N mod POKE_PER_PAGE = 0 → Z.of_nat (length names) = N)
    ∧ (N mod POKE_PER_PAGE ≠ 0 → N < Z.of_nat (length names)).
Proof.
  intros Hroot Hstatus Hbody Htarget Hfull run_async run_sync.
  assert (obind (nb_poke_of json_obj max_pokemons) as_int = Returned N) as Hcut.
  { destruct Htarget as [->|[-> Hcount]]; simpl; [done|by rewrite Hcount]. }
  pose proof (cutoff_of_root _ _ _ _ _ Hroot Hstatus Hbody Hcut) as Hcutoff.
  destruct (in_order_full_pages http (requested (trace w) ++ [Root])
              (page_windows N) Hfull) as (pages & Hpages & Hlen).
  assert (names_in_page_order http (requested (trace w)) max_pokemons
          = Returned (concat pages)) as Hnames.
  { unfold names_in_page_order. rewrite Hroot. simpl.
    rewrite bool_decide_false by (rewrite Hstatus; lia).
    rewrite Hbody. simpl. rewrite Hcut. simpl. by rewrite Hpages. }
  assert (pages_asked http (requested (trace w)) max_pokemons
          = map page_url (page_windows N)) as Hasked.
  { unfold pages_asked. by rewrite Hcutoff. }
  destruct (get_pokemon_names_async_run http timing c max_pokemons w) as (Ha & Hta & _).
  destruct (get_pokemon_names_sync_run http max_pokemons w)
    as (Hs & (sent & _ & Hts & Hall) & _).
  fold run_async in Ha, Hta. fold run_sync in Hs, Hts, Hall.
  rewrite (names_gathered_returned _ _ _ _ _ Hnames) in Ha.
  rewrite Hnames in Hs. rewrite (Hall _ Hs) in Hts.
  assert (Z.of_nat (length (concat pages))
          = POKE_PER_PAGE * Z.of_nat (length (page_windows N))) as Hcount.
  { rewrite Hlen. unfold POKE_PER_PAGE. change (Z.to_nat 10) with 10%nat. lia. }
  assert (length (page_windows N) = pages_needed N) as Hwin.
  { unfold page_windows. apply windows_from_length. }
  exists (concat pages). split_and!; try done.
  - by rewrite Hta, requested_app, requested_exchanges, Hasked.
  - by rewrite Hts, requested_app, requested_exchanges, Hasked.
  - intros Hpos Hmod. rewrite Hcount, Hwin. by apply pages_needed_aligned.
  - intros Hmod. rewrite Hcount, Hwin. by apply pages_needed_overshoot.
Qed.

Lemma C2_names_cover_target_witness :
  ∃ names,
    fst (get_pokemon_names_async full_pages in_turn 0 (Some 95) initial)
        = Returned names
    ∧ fst (get_pokemon_names_sync full_pages (Some 95) initial) = Returned names
    ∧ 95 < Z.of_nat (length names)
    ∧ length names = 100%nat.
Proof.
  destruct (C2_names_cover_target full_pages in_turn 0%nat (Some 95) initial
              (mkResponse 200 (Some (listing 1302 ten_names)))
              (listing 1302 ten_names) 95)
    as (names & Ha & Hs & _ & _ & Hpages & Hlen & _ & Hover).
  - reflexivity.
  - reflexivity.
  - reflexivity.
  - left. reflexivity.
  - intros history offset.
    exists (mkResponse 200 (Some (listing 1302 ten_names))),
      (listing 1302 ten_names), (map JStr ten_names).
    repeat split.
  - exists names. repeat split.
    + exact Ha.
    + exact Hs.
    + apply Hover. discriminate.
    + rewrite Hpages in Hlen. vm_compute in Hlen.
      apply (Nat2Z.inj _ 100%nat). exact Hlen.
Defined.

(** C7, amended.  Every call of a name lister first fetches the root
    listing, then the pages: the concurrent lister sends all the page
    requests, the sequential lister sends them one by one, up to and
    including the first whose fetch raises (all of them when it returns).
    When the root answer has status 200 and a body that decodes, the
    cutoff of the pagination is the count read from that body if the
    caller gave no maximum, and the caller's maximum otherwise, in which
    case the count is not read; the pages are the windows at offsets 0,
    10, 20, ... below the cutoff. *)
Theorem C7_cutoff http timing c max_pokemons w :
  let history := requested (trace w) in
  let run_async := get_pokemon_names_async http timing c max_pokemons w in
  let run_sync := get_pokemon_names_sync http max_pokemons w in
  let pages := pages_asked http history max_pokemons in
  requested (trace (snd run_async)) = history ++ Root :: pages
  ∧ requested (trace (snd run_sync))
      = history ++ Root :: sent_in_turn (page_result http) (history ++ [Root]) pages
  ∧ (∀ names, fst run_sync = Returned names →
       requested (trace (snd run_sync)) = history ++ Root :: pages)
  ∧ (∀ response json_obj cutoff,
       http history Root = Returned response →
       status_code response = 200 →
       content response = Some json_obj →
       match max_pokemons with
       | None => ∃ count, subscript json_obj "count" = Returned count
                          ∧ as_int count = Returned cutoff
       | Some maximum => cutoff = maximum
       end →
       pages = map page_url (page_windows cutoff)
       ∧ ∀ offset, offset ∈ page_windows cutoff
                   ↔ 0 ≤ offset < cutoff ∧ offset mod POKE_PER_PAGE = 0).
Proof.
  intros history run_async run_sync pages.
  destruct (get_pokemon_names_async_run http timing c max_pokemons w) as (_ & Hta & _).
  destruct (get_pokemon_names_sync_run http max_pokemons w)
    as (_ & (sent & _ & Hts & Hall) & _).
  pose proof (get_pokemon_names_sync_sent http max_pokemons w) as Hsent.
  cbv zeta in Hsent.
  fold run_async in Hta. fold run_sync in Hts, Hall, Hsent.
  fold history in Hta, Hts, Hall, Hsent. fold pages in Hta, Hts, Hall, Hsent.
  split_and!.
  - by rewrite Hta, requested_app, requested_exchanges.
  - by rewrite Hsent, requested_app, requested_exchanges.
  - intros names Hnames. rewrite Hts, (Hall _ Hnames).
    by rewrite requested_app, requested_exchanges.
  - intros response json_obj cutoff Hroot Hstatus Hbody Hcut.
    assert (obind (nb_poke_of json_obj max_pokemons) as_int = Returned cutoff)
      as Hnb.
    { destruct max_pokemons as [maximum|]; simpl.
      - by rewrite Hcut.
      - destruct Hcut as (count & -> & Hint). done. }
    pose proof (cutoff_of_root _ _ _ _ _ Hroot Hstatus Hbody Hnb) as Hcutoff.
    split; [|apply page_windows_spec].
    unfold pages, pages_asked. by rewrite Hcutoff.
Qed.

Lemma C7_cutoff_witness :
  (requested (trace (snd (get_pokemon_names_async three_pages in_turn 0 None initial)))
     = [Root; Page 0 10; Page 10 10; Page 20 10]
   ∧ requested (trace (snd (get_pokemon_names_sync three_pages None initial)))
     = [Root; Page 0 10; Page 10 10; Page 20 10])
  ∧ (requested (trace (snd (get_pokemon_names_async three_pages in_turn 0 (Some 11)
                              initial)))
       = [Root; Page 0 10; Page 10 10]
     ∧ requested (trace (snd (get_pokemon_names_sync three_pages (Some 11) initial)))
       = [Root; Page 0 10; Page 10 10])
  ∧ (requested (trace (snd (get_pokemon_names_async two_bad last_first 0 None
                              initial)))
       = [Root; Page 0 10; Page 10 10]
     ∧ requested (trace (snd (get_pokemon_names_sync two_bad None initial)))
       = [Root; Page 0 10]).
Proof.
  split_and!.
  - destruct (C7_cutoff three_pages in_turn 0%nat None initial)
      as (Ha & _ & _ & Hpages).
    destruct (Hpages (mkResponse 200 (Some (listing 25 ["a"; "b"]%string)))
                (listing 25 ["a"; "b"]%string) 25) as [Hp _].
    + reflexivity.
    + reflexivity.
    + reflexivity.
    + exists (JNum 25). split; reflexivity.
    + rewrite Ha, Hp. reflexivity.
  - destruct (C7_cutoff three_pages in_turn 0%nat None initial)
      as (_ & _ & Hs & Hpages).
    destruct (Hpages (mkResponse 200 (Some (listing 25 ["a"; "b"]%string)))
                (listing 25 ["a"; "b"]%string) 25) as [Hp _].
    + reflexivity.
    + reflexivity.
    + reflexivity.
    + exists (JNum 25). split; reflexivity.
    + rewrite (Hs [JStr "a"; JStr "b"; JStr "c"; JStr "d"; JStr "e"]), Hp;
        reflexivity.
  - destruct (C7_cutoff three_pages in_turn 0%nat (Some 11) initial)
      as (Ha & _ & _ & Hpages).
    destruct (Hpages (mkResponse 200 (Some (listing 25 ["a"; "b"]%string)))
                (listing 25 ["a"; "b"]%string) 11) as [Hp _].
    + reflexivity.
    + reflexivity.
    + reflexivity.
    + reflexivity.
    + rewrite Ha, Hp. reflexivity.
  - destruct (C7_cutoff three_pages in_turn 0%nat (Some 11) initial)
      as (_ & _ & Hs & Hpages).
    destruct (Hpages (mkResponse 200 (Some (listing 25 ["a"; "b"]%string)))
                (listing 25 ["a"; "b"]%string) 11) as [Hp _].
    + reflexivity.
    + reflexivity.
    + reflexivity.
    + reflexivity.
    + rewrite (Hs [JStr "a"; JStr "b"; JStr "c"; JStr "d"]), Hp; reflexivity.
  - destruct (C7_cutoff two_bad last_first 0%nat None initial)
      as (Ha & _ & _ & Hpages).
    destruct (Hpages (mkResponse 200 (Some (listing 12 []))) (listing 12 []) 12)
      as [Hp _].
    + reflexivity.
    + reflexivity.
    + reflexivity.
    + exists (JNum 12). split; reflexivity.
    + rewrite Ha, Hp. reflexivity.
  - destruct (C7_cutoff two_bad last_first 0%nat None initial)
      as (_ & Hs & _ & Hpages).
    destruct (Hpages (mkResponse 200 (Some (listing 12 []))) (listing 12 []) 12)
      as [Hp _].
    + reflexivity.
    + reflexivity.
    + reflexivity.
    + exists (JNum 12). split; reflexivity.
    + rewrite Hs, Hp. reflexivity.
Defined.

(** C7 as stated fails with a maximum: the count of the root answer is
    not read.  A root body without a count, whose count cannot be read,
    lets both listers return the names of the pages below the maximum;
    without a maximum they raise [KeyError('count')]. *)
Lemma C7_count_not_read_counterexample :
  no_count [] Root = ok (JObj [("results"%string, JArr [named "a"])])
  ∧ subscript (JObj [("results"%string, JArr [named "a"])]) "count"
    = Raised (KeyError "count")
  ∧ fst (get_pokemon_names_async no_count in_turn 0 (Some 20) initial)
    = Returned [JStr "a"; JStr "a"]
  ∧ fst (get_pokemon_names_sync no_count (Some 20) initial)
    = Returned [JStr "a"; JStr "a"]
  ∧ fst (get_pokemon_names_async no_count in_turn 0 None initial)
    = Raised (KeyError "count")
  ∧ fst (get_pokemon_names_sync no_count None initial)
    = Raised (KeyError "count").
Proof. vm_compute. by split_and!. Qed.

Lemma gathered_nil {A} timing w :
  gathered timing (@nil (coroutine A)) w = (Returned [], w).
Proof. unfold gathered. apply gather_nil. Qed.

(** C8.  When the root listing request is answered with a status other
    than 200, both name listers print the message and return the empty
    list, whether or not the caller supplied a maximum, after that single
    request; and both aggregators return the empty mapping. *)
Theorem C8_root_failure http timing c max_pokemons number w response :
  http (requested (trace w)) Root = Returned response →
  status_code response ≠ 200 →
  get_pokemon_names_async http timing c max_pokemons w
    = (Returned [],
       mkWorld (clients w)
         (trace w ++ [Got (Some c) Root (Returned response)])
         (stdout w ++ [NotOk]))
  ∧ get_pokemon_names_sync http max_pokemons w
    = (Returned [],
       mkWorld (clients w)
         (trace w ++ [Got None Root (Returned response)])
         (stdout w ++ [NotOk]))
  ∧ get_pokemons_async http timing number w
    = (Returned ∅,
       mkWorld (S (clients w))
         (trace w ++ [Opened (clients w);
                      Got (Some (clients w)) Root (Returned response);
                      Closed (clients w)])
         (stdout w ++ [NotOk]))
  ∧ get_pokemons_sync http number w
    = (Returned ∅,
       mkWorld (clients w)
         (trace w ++ [Got None Root (Returned response)])
         (stdout w ++ [NotOk])).
Proof.
  intros Hroot Hstatus.
  assert (∀ c mx w', requested (trace w') = requested (trace w) →
            get_pokemon_names_async http timing c mx w'
            = (Returned [],
               mkWorld (clients w')
                 (trace w' ++ [Got (Some c) Root (Returned response)])
                 (stdout w' ++ [NotOk]))) as Hasync.
  { intros c' mx w' Hw'.
    unfold get_pokemon_names_async, bind, ret, print, client_get, emit.
    rewrite Hw', Hroot. simpl. by rewrite bool_decide_true. }
  assert (∀ mx, get_pokemon_names_sync http mx w
            = (Returned [],
               mkWorld (clients w)
                 (trace w ++ [Got None Root (Returned response)])
                 (stdout w ++ [NotOk]))) as Hsync.
  { intros mx.
    unfold get_pokemon_names_sync, bind, ret, print, requests_get, emit.
    rewrite Hroot. simpl. by rewrite bool_decide_true. }
  split_and!.
  - by apply Hasync.
  - apply Hsync.
  - unfold get_pokemons_async, with_client, bind. rewrite Hasync.
    + cbn [map]. rewrite gathered_nil.
      simpl. unfold emit. simpl. by rewrite <- !app_assoc.
    + simpl. rewrite requested_app. simpl. by rewrite app_nil_r.
  - unfold get_pokemons_sync, bind. by rewrite Hsync.
Qed.

Lemma C8_root_failure_witness :
  fst (get_pokemon_names_async unavailable in_turn 0 (Some 100) initial) = Returned []
  ∧ fst (get_pokemon_names_sync unavailable (Some 100) initial) = Returned []
  ∧ fst (get_pokemons_async unavailable in_turn 100 initial) = Returned ∅
  ∧ fst (get_pokemons_sync unavailable 100 initial) = Returned ∅.
Proof.
  destruct (C8_root_failure unavailable in_turn 0%nat (Some 100) 100 initial
              (mkResponse 503 None)) as (H1 & H2 & H3 & H4).
  - reflexivity.
  - discriminate.
  - rewrite H1, H2, H3, H4. repeat split.
Defined.

(** C9.  When the requested number is zero or negative and the root
    listing request succeeds (status 200, a body that decodes), both name
    listers return the empty list after the root request alone, with no
    page request, and both aggregators return the empty mapping after the
    root request alone, with no detail request. *)
Theorem C9_nothing_requested http timing c number w response json_obj :
  number ≤ 0 →
  http (requested (trace w)) Root = Returned response →
  status_code response = 200 →
  content response = Some json_obj →
  get_pokemon_names_async http timing c (Some number) w
    = (Returned [],
       mkWorld (clients w)
         (trace w ++ [Got (Some c) Root (Returned response)])
         (stdout w))
  ∧ get_pokemon_names_sync http (Some number) w
    = (Returned [],
       mkWorld (clients w)
         (trace w ++ [Got None Root (Returned response)])
         (stdout w))
  ∧ get_pokemons_async http timing number w
    = (Returned ∅,
       mkWorld (S (clients w))
         (trace w ++ [Opened (clients w);
                      Got (Some (clients w)) Root (Returned response);
                      Closed (clients w)])
         (stdout w))
  ∧ get_pokemons_sync http number w
    = (Returned ∅,
       mkWorld (clients w)
         (trace w ++ [Got None Root (Returned response)])
         (stdout w)).
Proof.
  intros Hnumber Hroot Hstatus Hbody.
  assert (Z.to_nat number = 0%nat) as Hfuel by lia.
  assert (∀ c w', requested (trace w') = requested (trace w) →
            get_pokemon_names_async http timing c (Some number) w'
            = (Returned [],
               mkWorld (clients w')
                 (trace w' ++ [Got (Some c) Root (Returned response)])
                 (stdout w'))) as Hasync.
  { intros c' w' Hw'.
    unfold get_pokemon_names_async, bind, ret, lift, print, client_get, emit.
    rewrite Hw', Hroot. simpl.
    rewrite bool_decide_false by (rewrite Hstatus; lia).
    rewrite Hbody. simpl. rewrite Hfuel. cbn [page_coroutines].
    by rewrite gathered_nil. }
  assert (get_pokemon_names_sync http (Some number) w
            = (Returned [],
               mkWorld (clients w)
                 (trace w ++ [Got None Root (Returned response)])
                 (stdout w))) as Hsync.
  { unfold get_pokemon_names_sync, bind, ret, lift, print, requests_get, emit.
    rewrite Hroot. simpl.
    rewrite bool_decide_false by (rewrite Hstatus; lia).
    rewrite Hbody. simpl. by rewrite Hfuel. }
  split_and!.
  - by apply Hasync.
  - apply Hsync.
  - unfold get_pokemons_async, with_client, bind. rewrite Hasync.
    + cbn [map]. rewrite gathered_nil.
      simpl. unfold emit. simpl. by rewrite <- !app_assoc.
    + simpl. rewrite requested_app. simpl. by rewrite app_nil_r.
  - unfold get_pokemons_sync, bind. by rewrite Hsync.
Qed.

Lemma C9_nothing_requested_witness :
  requested (trace (snd (get_pokemon_names_async three_pokemons in_turn 0 (Some (-4))
                            initial)))
    = [Root]
  ∧ requested (trace (snd (get_pokemon_names_sync three_pokemons (Some (-4)) initial)))
    = [Root]
  ∧ get_pokemons_async three_pokemons in_turn 0 initial
    = (Returned ∅,
       mkWorld 1 [Opened 0; Got (Some 0%nat) Root (ok (listing 3 ["a"; "b"; "c"]%string));
                  Closed 0] [])
  ∧ get_pokemons_sync three_pokemons 0 initial
    = (Returned ∅,
       mkWorld 0 [Got None Root (ok (listing 3 ["a"; "b"; "c"]%string))] []).
Proof.
  destruct (C9_nothing_requested three_pokemons in_turn 0%nat (-4) initial
              (mkResponse 200 (Some (listing 3 ["a"; "b"; "c"]%string)))
              (listing 3 ["a"; "b"; "c"]%string)) as (H1 & H2 & _ & _).
  - lia.
  - reflexivity.
  - reflexivity.
  - reflexivity.
  - destruct (C9_nothing_requested three_pokemons in_turn 0%nat 0 initial
                (mkResponse 200 (Some (listing 3 ["a"; "b"; "c"]%string)))
                (listing 3 ["a"; "b"; "c"]%string)) as (_ & _ & H3 & H4).
    + lia.
    + reflexivity.
    + reflexivity.
    + reflexivity.
    + rewrite H1, H2. repeat split; assumption.
Defined.

(** ** The result mapping *)

Lemma store_all_lookup details pokemons result :
  store_all details pokemons = Returned result →
  ∀ k, result !! k = match last_named k details with
                     | Some d => Some d
                     | None => pokemons !! k
                     end.
Proof.
  revert pokemons. unfold last_named.
  induction details as [|d rest IH]; intros pokemons Hstore k; simpl in *.
  - by injection Hstore as ->.
  - apply obind_returned in Hstore as (m1 & Hd & Hrest).
    unfold store in Hd. apply obind_returned in Hd as (kd & Hkd & Hm1).
    injection Hm1 as <-. rewrite (IH _ Hrest k).
    destruct (decide (key_of d = Returned k)) as [Hk|Hk].
    + rewrite filter_cons_True by done. rewrite last_cons.
      destruct (last _); [done|].
      assert (kd = k) as -> by congruence. by rewrite lookup_insert_eq.
    + rewrite filter_cons_False by done.
      destruct (last _); [done|].
      rewrite lookup_insert_ne; [done|]. intros ->. by apply Hk.
Qed.

Lemma store_all_named details pokemons result :
  store_all details pokemons = Returned result →
  ∀ d, d ∈ details → ∃ k, key_of d = Returned k.
Proof.
  revert pokemons.
  induction details as [|d0 rest IH]; intros pokemons Hstore d Hd; simpl in *.
  - by apply elem_of_nil in Hd.
  - apply obind_returned in Hstore as (m1 & Hd0 & Hrest).
    apply elem_of_cons in Hd as [->|Hd]; [|by eapply IH].
    unfold store in Hd0. apply obind_returned in Hd0 as (k & Hk & _). eauto.
Qed.

Lemma keyed_by_name_store details result :
  store_all details ∅ = Returned result → keyed_by_name details result.
Proof.
  intros Hstore.
  assert (∀ k, result !! k = last_named k details) as Hlast.
  { intros k. rewrite (store_all_lookup _ _ _ Hstore k), lookup_empty.
    by destruct (last_named k details). }
  split_and!; [|done|].
  - intros k v. rewrite Hlast. unfold last_named. intros Hv.
    apply last_Some_elem_of, list_elem_of_filter in Hv. by destruct Hv.
  - intros d Hd Hsame.
    destruct (store_all_named _ _ _ Hstore d Hd) as (k & Hk).
    exists k. split; [done|]. rewrite Hlast. unfold last_named.
    assert (d ∈ filter (λ d0, key_of d0 = Returned k) details) as Hin
      by by apply list_elem_of_filter.
    destruct (last (filter _ details)) as [x|] eqn:Hx.
    + f_equal. apply last_Some_elem_of, list_elem_of_filter in Hx as [Hxk Hxin].
      apply Hsame; [done|congruence].
    + apply last_None in Hx. rewrite Hx in Hin. by apply elem_of_nil in Hin.
Qed.

Lemma fetched_details_pages http via history offsets :
  fetched_details (exchanges http via history (map page_url offsets)) = [].
Proof.
  revert history. induction offsets as [|o rest IH]; intros history; simpl; [done|].
  apply IH.
Qed.

Lemma fetched_details_in_order http via history names details :
  in_order (detail_result http) history (map Detail names) = Returned details →
  fetched_details (exchanges http via history (map Detail names)) = details.
Proof.
  revert history details.
  induction names as [|name rest IH]; intros history details Hd; simpl in *.
  - by injection Hd as <-.
  - apply obind_returned in Hd as (d & Hfetch & Hrest).
    apply obind_returned in Hrest as (ds & Hds & Hdetails).
    injection Hdetails as <-. rewrite (IH _ _ Hds).
    unfold detail_result in Hfetch.
    destruct (http history (Detail name)) as [response|e]; simpl in *; [|done].
    case_bool_decide.
    + by injection Hfetch as <-.
    + destruct (content response); simpl in *; [|done]. by injection Hfetch as <-.
Qed.

Lemma aggregated_fetched http via history number result :
  aggregated http history number = Returned result →
  store_all
    (fetched_details (exchanges http via history (requests_asked http history number)))
    ∅ = Returned result.
Proof.
  unfold aggregated, requests_asked, details_asked. intros Hagg.
  apply obind_returned in Hagg as (names & Hnames & Hagg).
  apply obind_returned in Hagg as (details & Hdetails & Hstore).
  rewrite Hnames. simpl.
  rewrite exchanges_app, fetched_details_app.
  replace (fetched_details (exchanges http via (history ++ [Root])
             (pages_asked http history (Some number)))) with (@nil json).
  - simpl. rewrite <- app_assoc. simpl.
    by rewrite (fetched_details_in_order _ _ _ _ _ Hdetails).
  - unfold pages_asked. destruct (cutoff_of _ _); [|done].
    by rewrite fetched_details_pages.
Qed.

Lemma events_of_extension {A} (m : M A) w t :
  trace (snd (m w)) = trace w ++ t → events_of m w = t.
Proof. unfold events_of. intros ->. apply drop_app_length. Qed.

Lemma fetched_details_session c t :
  fetched_details (Opened c :: t ++ [Closed c]) = fetched_details t.
Proof. simpl. rewrite fetched_details_app. simpl. by rewrite app_nil_r. Qed.

(** C4, amended.  When an aggregator returns, every key of the mapping is
    the name of its own value, each key holds the last fetched detail
    record that carries it as its name, and a fetched record [d] is found
    under its own name whenever the fetched records of that name are all
    equal to [d]; the name used in the request plays no part. *)
Theorem C4_keys_match_names http timing number w result :
  (fst (get_pokemons_async http timing number w) = Returned result →
   keyed_by_name
     (fetched_details (events_of (get_pokemons_async http timing number) w)) result)
  ∧ (fst (get_pokemons_sync http number w) = Returned result →
     keyed_by_name
       (fetched_details (events_of (get_pokemons_sync http number) w)) result).
Proof.
  split.
  - intros Hrun.
    destruct (get_pokemons_async_run http timing number w) as (Hr & Ht & _).
    rewrite Hrun in Hr. symmetry in Hr.
    apply aggregated_gathered_returned in Hr.
    rewrite (events_of_extension _ _ _ Ht), fetched_details_session.
    apply keyed_by_name_store. by apply aggregated_fetched.
  - intros Hrun.
    destruct (get_pokemons_sync_run http number w)
      as (Hr & (sent & _ & Ht & Hall) & _).
    rewrite (Hall _ Hrun) in Ht. rewrite Hrun in Hr. simpl in Hr.
    assert (aggregated http (requested (trace w)) number = Returned result) as Hagg.
    { destruct (aggregated _ _ _); simpl in Hr; congruence. }
    rewrite (events_of_extension _ _ _ Ht).
    apply keyed_by_name_store. by apply aggregated_fetched.
Qed.

Lemma C4_keys_match_names_witness :
  keyed_by_name
    (fetched_details (events_of (get_pokemons_async three_pokemons in_turn 3) initial))
    abc
  ∧ keyed_by_name
      (fetched_details (events_of (get_pokemons_sync three_pokemons 3) initial)) abc.
Proof.
  destruct (C4_keys_match_names three_pokemons in_turn 3 initial abc) as [Ha Hs].
  split.
  - apply Ha. vm_compute. reflexivity.
  - apply Hs. vm_compute. reflexivity.
Defined.

(** C4 as stated fails: two detail records that carry the same name are
    both fetched, and only the later one is in the mapping. *)
Lemma C4_round_trip_counterexample :
  ∃ result_async result_sync d,
    fst (get_pokemons_async same_name in_turn 2 initial) = Returned result_async
    ∧ fst (get_pokemons_sync same_name 2 initial) = Returned result_sync
    ∧ d ∈ fetched_details (events_of (get_pokemons_async same_name in_turn 2) initial)
    ∧ d ∈ fetched_details (events_of (get_pokemons_sync same_name 2) initial)
    ∧ subscript d "name" = Returned (JStr "x")
    ∧ result_async !! KStr "x" ≠ Some d
    ∧ result_sync !! KStr "x" ≠ Some d.
Proof.
  exists (<[KStr "x" := JObj [("name"%string, JStr "x"); ("id"%string, JNum 2)]]> ∅),
    (<[KStr "x" := JObj [("name"%string, JStr "x"); ("id"%string, JNum 2)]]> ∅),
    (JObj [("name"%string, JStr "x"); ("id"%string, JNum 1)]).
  split_and!.
  - vm_compute. reflexivity.
  - vm_compute. reflexivity.
  - vm_compute. apply list_elem_of_here.
  - vm_compute. apply list_elem_of_here.
  - reflexivity.
  - rewrite lookup_insert_eq. intros H. discriminate H.
  - rewrite lookup_insert_eq. intros H. discriminate H.
Qed.

(** ** Client objects *)

Lemma exchanges_as_pairs http via history urls :
  ∃ exchanged : list (Url * outcome Response),
    length exchanged = length urls
    ∧ exchanges http via history urls
        = map (λ x, Got via (fst x) (snd x)) exchanged.
Proof.
  revert history. induction urls as [|u rest IH]; intros history; simpl.
  - by exists [].
  - destruct (IH (history ++ [u])) as (l & Hlen & Hl).
    exists ((u, http history u) :: l). simpl. by rewrite Hlen, Hl.
Qed.

Lemma exchanges_sessionless http history urls :
  sessionless (exchanges http None history urls).
Proof.
  revert history. induction urls as [|u rest IH]; intros history; simpl.
  - constructor.
  - constructor; [by eauto|apply IH].
Qed.

(** C6, amended.  The concurrent aggregator creates one client, sends
    every request of the run through it, opens it before the first request
    and closes it after the last.  The sequential aggregator creates no
    client and passes none: each of its requests is a separate call of
    the module-level [requests.get]. *)
Theorem C6_sessions http timing number w :
  one_session (clients w) (events_of (get_pokemons_async http timing number) w)
  ∧ clients (snd (get_pokemons_async http timing number w)) = S (clients w)
  ∧ sessionless (events_of (get_pokemons_sync http number) w)
  ∧ clients (snd (get_pokemons_sync http number w)) = clients w.
Proof.
  destruct (get_pokemons_async_run http timing number w) as (_ & Hta & Hca).
  destruct (get_pokemons_sync_run http number w)
    as (_ & (sent & _ & Hts & _) & Hcs).
  split_and!; [|done| |done].
  - rewrite (events_of_extension _ _ _ Hta).
    destruct (exchanges_as_pairs http (Some (clients w)) (requested (trace w))
                (requests_asked http (requested (trace w)) number))
      as (exchanged & Hlen & ->).
    exists exchanged. split; [|done].
    intros ->. discriminate Hlen.
  - rewrite (events_of_extension _ _ _ Hts). apply exchanges_sessionless.
Qed.

(** C6 as stated fails for the sequential variant: its requests go
    through no client at all. *)
Lemma C6_sync_session_counterexample :
  ¬ ∃ c, one_session c (events_of (get_pokemons_sync three_pokemons 3) initial).
Proof.
  intros (c & exchanged & _ & Htrace).
  vm_compute in Htrace. discriminate Htrace.
Qed.

(** ** Failed requests *)

(** X14.  A request answered with a status other than 200: the page
    fetchers return the empty list, the detail fetchers the empty record,
    and each prints the message. *)
Lemma failed_request_degrades http c u w response :
  http (requested (trace w)) u = Returned response →
  status_code response ≠ 200 →
  (fst (get_pokemon_page_async http c u w) = Returned []
   ∧ stdout (snd (get_pokemon_page_async http c u w))
       = stdout w ++ [RetrievingUrl u; NotOk])
  ∧ (fst (get_pokemon_page_sync http u w) = Returned []
     ∧ stdout (snd (get_pokemon_page_sync http u w))
         = stdout w ++ [RetrievingUrl u; NotOk])
  ∧ (fst (get_pokemon_details_async http c u w) = Returned (JObj [])
     ∧ stdout (snd (get_pokemon_details_async http c u w))
         = stdout w ++ [RetrievingDetails u; NotOk])
  ∧ (fst (get_pokemon_details_sync http u w) = Returned (JObj [])
     ∧ stdout (snd (get_pokemon_details_sync http u w))
         = stdout w ++ [RetrievingDetails u; NotOk]).
Proof.
  intros Hr Hs.
  rewrite get_pokemon_page_async_run, get_pokemon_page_sync_run,
    get_pokemon_details_async_run, get_pokemon_details_sync_run.
  unfold page_result, detail_result, diagnostics. rewrite Hr. simpl.
  by rewrite bool_decide_true.
Qed.

Lemma fetched_details_failed t via name response :
  Got via (Detail name) (Returned response) ∈ t →
  status_code response ≠ 200 →
  JObj [] ∈ fetched_details t.
Proof.
  intros Hin Hs. induction t as [|e t IH]; [by apply elem_of_nil in Hin|].
  apply elem_of_cons in Hin as [<-|Hin].
  - simpl. rewrite bool_decide_true by done. apply list_elem_of_here.
  - specialize (IH Hin).
    destruct e as [c|via' u r|c]; simpl; try done.
    destruct u; try done. destruct r; try done.
    apply elem_of_app. by right.
Qed.

(** X13.  An aggregator that returns a mapping has seen no failed detail
    request: after a detail request answered with a status other than 200
    it raises, on the [name] of the empty record. *)
Lemma failed_detail_never_returns http timing number w result via name response :
  status_code response ≠ 200 →
  (fst (get_pokemons_async http timing number w) = Returned result →
   Got via (Detail name) (Returned response)
     ∉ events_of (get_pokemons_async http timing number) w)
  ∧ (fst (get_pokemons_sync http number w) = Returned result →
     Got via (Detail name) (Returned response)
       ∉ events_of (get_pokemons_sync http number) w).
Proof.
  intros Hs.
  assert (∀ t, store_all (fetched_details t) ∅ = Returned result →
            Got via (Detail name) (Returned response) ∉ t) as Hstore.
  { intros t Hst Hin.
    pose proof (fetched_details_failed _ _ _ _ Hin Hs) as Hempty.
    destruct (store_all_named _ _ _ Hst _ Hempty) as (k & Hk). discriminate Hk. }
  split; intros Hrun.
  - destruct (get_pokemons_async_run http timing number w) as (Hr & Ht & _).
    rewrite Hrun in Hr. symmetry in Hr.
    apply aggregated_gathered_returned in Hr.
    rewrite (events_of_extension _ _ _ Ht).
    apply Hstore. rewrite fetched_details_session.
    by apply aggregated_fetched.
  - destruct (get_pokemons_sync_run http number w)
      as (Hr & (sent & _ & Ht & Hall) & _).
    rewrite (Hall _ Hrun) in Ht. rewrite Hrun in Hr. simpl in Hr.
    assert (aggregated http (requested (trace w)) number = Returned result) as Hagg.
    { destruct (aggregated _ _ _); simpl in Hr; congruence. }
    rewrite (events_of_extension _ _ _ Ht).
    apply Hstore. by apply aggregated_fetched.
Qed.

(** A run of a concurrent function on a given transport, for every
    completion order: its result is the one of the requests sent one
    after the other when they all return. *)
Ltac names_for_every_timing :=
  match goal with
  | |- fst (get_pokemon_names_async ?h ?t ?c ?m ?w) = _ =>
      destruct (get_pokemon_names_async_run h t c m w) as (-> & _);
      apply names_gathered_returned; vm_compute; reflexivity
  end.

Ltac mapping_for_every_timing :=
  match goal with
  | |- fst (get_pokemons_async ?h ?t ?n ?w) = _ =>
      destruct (get_pokemons_async_run h t n w) as (-> & _);
      apply aggregated_gathered_returned; vm_compute; reflexivity
  end.

(** A failed page request costs its own names only: the other pages are
    fetched and the aggregators return. *)
Example failed_page_spares_siblings :
  (∀ timing,
     fst (get_pokemon_names_async first_page_fails timing 0 (Some 12) initial)
       = Returned [JStr "k"; JStr "l"])
  ∧ fst (get_pokemon_names_sync first_page_fails (Some 12) initial)
    = Returned [JStr "k"; JStr "l"]
  ∧ (∀ timing,
       fst (get_pokemons_async first_page_fails timing 12 initial)
         = Returned (<[KStr "l" := named "l"]> (<[KStr "k" := named "k"]> ∅)))
  ∧ fst (get_pokemons_sync first_page_fails 12 initial)
    = Returned (<[KStr "l" := named "l"]> (<[KStr "k" := named "k"]> ∅)).
Proof.
  split_and!.
  - intros timing. names_for_every_timing.
  - vm_compute. reflexivity.
  - intros timing. mapping_for_every_timing.
  - vm_compute. reflexivity.
Qed.

(** The concurrent aggregator on the listing whose first detail request
    is answered 404, for every completion order: both detail requests
    are sent, and the saving of the empty record raises. *)
Lemma first_detail_fails_async timing :
  fst (get_pokemons_async first_detail_fails timing 2 initial)
    = Raised (KeyError "name")
  ∧ requested (trace (snd (get_pokemons_async first_detail_fails timing 2 initial)))
    = [Root; Page 0 10; Detail (JStr "a"); Detail (JStr "b")].
Proof.
  destruct (get_pokemons_async_run first_detail_fails timing 2 initial)
    as (-> & -> & _).
  split.
  - rewrite (aggregated_gathered_stored _ _ _ _
               [JStr "a"; JStr "b"] [JObj []; named "b"]);
      vm_compute; reflexivity.
  - vm_compute. reflexivity.
Qed.

(** C3 at its failing input.  The detail request of the first name is
    answered 404: the detail fetcher returns the empty record, and both
    aggregators then raise [KeyError('name')] instead of returning a
    mapping, whatever the order in which the answers come in. *)
Theorem C3_failed_detail_raises :
  (∀ timing, fst (get_pokemons_async first_detail_fails timing 2 initial)
             = Raised (KeyError "name"))
  ∧ fst (get_pokemons_sync first_detail_fails 2 initial) = Raised (KeyError "name").
Proof.
  split.
  - intros timing. apply first_detail_fails_async.
  - vm_compute. reflexivity.
Qed.

(** C5 at its failing input.  The detail request of "a" is answered 404
    and the detail fetcher returns the empty record without raising; the
    sequential aggregator then raises before the sibling request for "b"
    is sent, and the concurrent aggregator sends it but raises before any
    record is saved, whatever the order in which the answers come in. *)
Theorem C5_failed_detail_stops_siblings :
  fst (get_pokemon_details_sync first_detail_fails (Detail (JStr "a")) initial)
    = Returned (JObj [])
  ∧ fst (get_pokemon_details_async first_detail_fails 0 (Detail (JStr "a")) initial)
    = Returned (JObj [])
  ∧ fst (get_pokemons_sync first_detail_fails 2 initial) = Raised (KeyError "name")
  ∧ requested (trace (snd (get_pokemons_sync first_detail_fails 2 initial)))
    = [Root; Page 0 10; Detail (JStr "a")]
  ∧ (∀ timing,
       fst (get_pokemons_async first_detail_fails timing 2 initial)
         = Raised (KeyError "name")
       ∧ requested (trace (snd (get_pokemons_async first_detail_fails timing 2
                                  initial)))
         = [Root; Page 0 10; Detail (JStr "a"); Detail (JStr "b")]).
Proof.
  split_and!.
  - vm_compute. reflexivity.
  - vm_compute. reflexivity.
  - vm_compute. reflexivity.
  - vm_compute. reflexivity.
  - intros timing. apply first_detail_fails_async.
Qed.


(** * Further properties *)

(** ** The root answer *)

Lemma names_in_page_order_root http history max_pokemons response json_obj cutoff :
  http history Root = Returned response →
  status_code response = 200 →
  content response = Some json_obj →
  obind (nb_poke_of json_obj max_pokemons) as_int = Returned cutoff →
  names_in_page_order http history max_pokemons
    = obind (in_order (page_result http) (history ++ [Root])
               (map page_url (page_windows cutoff)))
        (λ pages, Returned (concat pages))
  ∧ pages_asked http history max_pokemons = map page_url (page_windows cutoff).
Proof.
  intros Hroot Hstatus Hbody Hcut. split.
  - unfold names_in_page_order. rewrite Hroot. simpl.
    rewrite bool_decide_false by (rewrite Hstatus; lia).
    rewrite Hbody. simpl. by rewrite Hcut.
  - unfold pages_asked.
    by rewrite (cutoff_of_root _ _ _ _ _ Hroot Hstatus Hbody Hcut).
Qed.

(** X1.  A name lister called without a maximum needs the count of the
    root answer: when the root answer has status 200 and a body that
    decodes but whose count cannot be read ([KeyError('count')] for an
    object without that key, [TypeError] for a body that is not an object
    or a count that is not a number), both listers raise that exception
    after the root request alone, and print nothing. *)
Theorem names_count_unreadable http timing c w response json_obj e :
  http (requested (trace w)) Root = Returned response →
  status_code response = 200 →
  content response = Some json_obj →
  obind (subscript json_obj "count") as_int = Raised e →
  (e = KeyError "count" ∨ e = TypeError)
  ∧ get_pokemon_names_async http timing c None w
    = (Raised e,
       mkWorld (clients w)
         (trace w ++ [Got (Some c) Root (Returned response)]) (stdout w))
  ∧ get_pokemon_names_sync http None w
    = (Raised e,
       mkWorld (clients w)
         (trace w ++ [Got None Root (Returned response)]) (stdout w)).
Proof.
  intros Hroot Hstatus Hbody Hcount.
  split_and!.
  - unfold subscript in Hcount.
    destruct json_obj as [| | | | |fields]; simpl in Hcount;
      try (injection Hcount as <-; by right).
    destruct (assoc "count" fields) as [count|]; simpl in Hcount.
    + destruct count; simpl in Hcount; try discriminate;
        injection Hcount as <-; by right.
    + injection Hcount as <-. by left.
  - unfold get_pokemon_names_async, bind, ret, lift, print, client_get, emit.
    rewrite Hroot. simpl. rewrite bool_decide_false by (rewrite Hstatus; lia).
    rewrite Hbody. simpl. by rewrite Hcount.
  - unfold get_pokemon_names_sync, bind, ret, lift, print, requests_get, emit.
    rewrite Hroot. simpl. rewrite bool_decide_false by (rewrite Hstatus; lia).
    rewrite Hbody. simpl. by rewrite Hcount.
Qed.

Lemma names_count_unreadable_witness :
  fst (get_pokemon_names_async (λ _ _, ok (JObj [])) in_turn 0 None initial)
    = Raised (KeyError "count")
  ∧ fst (get_pokemon_names_sync (λ _ _, ok (JObj [])) None initial)
    = Raised (KeyError "count").
Proof.
  destruct (names_count_unreadable (λ _ _, ok (JObj [])) in_turn 0%nat initial
              (mkResponse 200 (Some (JObj []))) (JObj []) (KeyError "count"))
    as (_ & Ha & Hs).
  - reflexivity.
  - reflexivity.
  - reflexivity.
  - reflexivity.
  - rewrite Ha, Hs. split; reflexivity.
Defined.

(** X2.  The body of the root answer is decoded before anything else is
    decided: a root answer with status 200 whose body does not decode
    makes both listers raise the exception of [json.loads] after the
    root request alone, whatever the maximum, and both aggregators raise
    it too; the concurrent one still closes its client. *)
Theorem root_body_undecodable http timing c max_pokemons number w response :
  http (requested (trace w)) Root = Returned response →
  status_code response = 200 →
  content response = None →
  get_pokemon_names_async http timing c max_pokemons w
    = (Raised DecodeError,
       mkWorld (clients w)
         (trace w ++ [Got (Some c) Root (Returned response)]) (stdout w))
  ∧ get_pokemon_names_sync http max_pokemons w
    = (Raised DecodeError,
       mkWorld (clients w)
         (trace w ++ [Got None Root (Returned response)]) (stdout w))
  ∧ get_pokemons_async http timing number w
    = (Raised DecodeError,
       mkWorld (S (clients w))
         (trace w ++ [Opened (clients w);
                      Got (Some (clients w)) Root (Returned response);
                      Closed (clients w)])
         (stdout w))
  ∧ get_pokemons_sync http number w
    = (Raised DecodeError,
       mkWorld (clients w)
         (trace w ++ [Got None Root (Returned response)]) (stdout w)).
Proof.
  intros Hroot Hstatus Hbody.
  assert (∀ c mx w', requested (trace w') = requested (trace w) →
            get_pokemon_names_async http timing c mx w'
            = (Raised DecodeError,
               mkWorld (clients w')
                 (trace w' ++ [Got (Some c) Root (Returned response)])
                 (stdout w'))) as Hasync.
  { intros c' mx w' Hw'.
    unfold get_pokemon_names_async, bind, ret, lift, print, client_get, emit.
    rewrite Hw', Hroot. simpl.
    rewrite bool_decide_false by (rewrite Hstatus; lia).
    by rewrite Hbody. }
  assert (∀ mx, get_pokemon_names_sync http mx w
            = (Raised DecodeError,
               mkWorld (clients w)
                 (trace w ++ [Got None Root (Returned response)])
                 (stdout w))) as Hsync.
  { intros mx.
    unfold get_pokemon_names_sync, bind, ret, lift, print, requests_get, emit.
    rewrite Hroot. simpl.
    rewrite bool_decide_false by (rewrite Hstatus; lia).
    by rewrite Hbody. }
  split_and!.
  - by apply Hasync.
  - apply Hsync.
  - unfold get_pokemons_async, with_client, bind. rewrite Hasync.
    + simpl. unfold emit. simpl. by rewrite <- !app_assoc.
    + simpl. rewrite requested_app. simpl. by rewrite app_nil_r.
  - unfold get_pokemons_sync, bind. by rewrite Hsync.
Qed.

Lemma root_body_undecodable_witness :
  fst (get_pokemon_names_sync (λ _ _, Returned (mkResponse 200 None)) (Some 5) initial)
    = Raised DecodeError
  ∧ fst (get_pokemons_async (λ _ _, Returned (mkResponse 200 None)) in_turn 5 initial)
    = Raised DecodeError.
Proof.
  destruct (root_body_undecodable (λ _ _, Returned (mkResponse 200 None))
              in_turn 0%nat (Some 5) 5 initial (mkResponse 200 None))
    as (_ & Hs & Ha & _).
  - reflexivity.
  - reflexivity.
  - reflexivity.
  - rewrite Hs, Ha. split; reflexivity.
Defined.

Lemma in_order_ext {A} (g1 g2 : list Url → Url → outcome A) history urls :
  (∀ h u, u ∈ urls → g1 h u = g2 h u) →
  in_order g1 history urls = in_order g2 history urls.
Proof.
  revert history. induction urls as [|u rest IH]; intros history Hext; simpl; [done|].
  rewrite Hext by apply list_elem_of_here.
  rewrite IH; [done|]. intros h u' Hu'. apply Hext. by apply list_elem_of_further.
Qed.

Lemma aggregated_ext http1 http2 history number :
  (∀ h u, u ≠ Root → http1 h u = http2 h u) →
  cutoff_of (http1 history Root) (Some number)
    = cutoff_of (http2 history Root) (Some number) →
  names_in_page_order http1 history (Some number)
    = names_in_page_order http2 history (Some number) →
  aggregated http1 history number = aggregated http2 history number.
Proof.
  intros Hext Hcut Hnames. unfold aggregated, pages_asked.
  rewrite Hnames, Hcut.
  destruct (names_in_page_order http2 history (Some number)) as [names|e];
    simpl; [|done].
  rewrite (in_order_ext (detail_result http1) (detail_result http2)); [done|].
  intros h u Hu. unfold detail_result.
  apply list_elem_of_fmap in Hu as (name & -> & _). by rewrite Hext.
Qed.

Lemma answers_ext http1 http2 history urls :
  (∀ h u, u ∈ urls → http1 h u = http2 h u) →
  answers http1 history urls = answers http2 history urls.
Proof.
  revert history. induction urls as [|u rest IH]; intros history Hext;
    cbn [answers]; [done|].
  rewrite Hext by apply list_elem_of_here.
  rewrite IH; [done|]. intros h u' Hu'. apply Hext. by apply list_elem_of_further.
Qed.

Lemma names_gathered_root http timing history max_pokemons response json_obj cutoff :
  http history Root = Returned response →
  status_code response = 200 →
  content response = Some json_obj →
  obind (nb_poke_of json_obj max_pokemons) as_int = Returned cutoff →
  names_gathered http timing history max_pokemons
    = obind (settle (timing (history ++ [Root]))
               (outcomes http page_landing (history ++ [Root])
                  (map page_url (page_windows cutoff))))
        (λ pages, Returned (concat pages)).
Proof.
  intros Hroot Hstatus Hbody Hcut.
  unfold names_gathered. rewrite Hroot. simpl.
  rewrite bool_decide_false by (rewrite Hstatus; lia).
  rewrite Hbody. simpl. by rewrite Hcut.
Qed.

Lemma aggregated_gathered_ext http1 http2 timing history number :
  (∀ h u, u ≠ Root → http1 h u = http2 h u) →
  cutoff_of (http1 history Root) (Some number)
    = cutoff_of (http2 history Root) (Some number) →
  names_gathered http1 timing history (Some number)
    = names_gathered http2 timing history (Some number) →
  aggregated_gathered http1 timing history number
    = aggregated_gathered http2 timing history number.
Proof.
  intros Hext Hcut Hnames. unfold aggregated_gathered, pages_asked, outcomes.
  rewrite Hnames, Hcut.
  destruct (names_gathered http2 timing history (Some number)) as [names|e];
    simpl; [|done].
  rewrite (answers_ext http1 http2); [done|].
  intros h u Hu. apply list_elem_of_fmap in Hu as (name & -> & _). by rewrite Hext.
Qed.

(** X3.  With a maximum, and so in every run of an aggregator, the count
    of the root answer is never looked at: two transports that differ
    only in the body of a root answer of status 200 (both bodies decode)
    give the same name list and the same mapping. *)
Theorem maximum_ignores_root_body http1 http2 timing c number w r1 b1 r2 b2 :
  (∀ h u, u ≠ Root → http1 h u = http2 h u) →
  http1 (requested (trace w)) Root = Returned r1 →
  status_code r1 = 200 → content r1 = Some b1 →
  http2 (requested (trace w)) Root = Returned r2 →
  status_code r2 = 200 → content r2 = Some b2 →
  fst (get_pokemon_names_async http1 timing c (Some number) w)
    = fst (get_pokemon_names_async http2 timing c (Some number) w)
  ∧ fst (get_pokemon_names_sync http1 (Some number) w)
    = fst (get_pokemon_names_sync http2 (Some number) w)
  ∧ fst (get_pokemons_async http1 timing number w)
    = fst (get_pokemons_async http2 timing number w)
  ∧ returned (fst (get_pokemons_sync http1 number w))
    = returned (fst (get_pokemons_sync http2 number w)).
Proof.
  intros Hext Hr1 Hs1 Hb1 Hr2 Hs2 Hb2.
  destruct (names_in_page_order_root http1 _ (Some number) _ _ number Hr1 Hs1 Hb1 eq_refl)
    as [Hn1 _].
  destruct (names_in_page_order_root http2 _ (Some number) _ _ number Hr2 Hs2 Hb2 eq_refl)
    as [Hn2 _].
  assert (names_in_page_order http1 (requested (trace w)) (Some number)
          = names_in_page_order http2 (requested (trace w)) (Some number)) as Hnames.
  { rewrite Hn1, Hn2.
    rewrite (in_order_ext (page_result http1) (page_result http2)); [done|].
    intros h u Hu. unfold page_result.
    apply list_elem_of_fmap in Hu as (o & -> & _). by rewrite Hext. }
  assert (aggregated http1 (requested (trace w)) number
          = aggregated http2 (requested (trace w)) number) as Hagg.
  { apply aggregated_ext; [done| |done].
    by rewrite (cutoff_of_root _ _ _ (Some number) number Hr1 Hs1 Hb1 eq_refl),
      (cutoff_of_root _ _ _ (Some number) number Hr2 Hs2 Hb2 eq_refl). }
  assert (names_gathered http1 timing (requested (trace w)) (Some number)
          = names_gathered http2 timing (requested (trace w)) (Some number))
    as Hgathered.
  { rewrite (names_gathered_root http1 _ _ (Some number) _ _ number Hr1 Hs1 Hb1 eq_refl),
      (names_gathered_root http2 _ _ (Some number) _ _ number Hr2 Hs2 Hb2 eq_refl).
    unfold outcomes. rewrite (answers_ext http1 http2); [done|].
    intros h u Hu. apply list_elem_of_fmap in Hu as (o & -> & _). by rewrite Hext. }
  assert (aggregated_gathered http1 timing (requested (trace w)) number
          = aggregated_gathered http2 timing (requested (trace w)) number)
    as Hgagg.
  { apply aggregated_gathered_ext; [done| |done].
    by rewrite (cutoff_of_root _ _ _ (Some number) number Hr1 Hs1 Hb1 eq_refl),
      (cutoff_of_root _ _ _ (Some number) number Hr2 Hs2 Hb2 eq_refl). }
  split_and!.
  - destruct (get_pokemon_names_async_run http1 timing c (Some number) w) as (-> & _).
    by destruct (get_pokemon_names_async_run http2 timing c (Some number) w)
      as (-> & _).
  - destruct (get_pokemon_names_sync_run http1 (Some number) w) as (-> & _).
    by destruct (get_pokemon_names_sync_run http2 (Some number) w) as (-> & _).
  - destruct (get_pokemons_async_run http1 timing number w) as (-> & _).
    by destruct (get_pokemons_async_run http2 timing number w) as (-> & _).
  - destruct (get_pokemons_sync_run http1 number w) as (-> & _).
    destruct (get_pokemons_sync_run http2 number w) as (-> & _).
    by rewrite Hagg.
Qed.

Lemma maximum_ignores_root_body_witness :
  fst (get_pokemons_async three_pokemons in_turn 3 initial)
    = fst (get_pokemons_async
             (λ h u, match u with Root => ok (JObj []) | _ => three_pokemons h u end)
             in_turn 3 initial).
Proof.
  destruct (maximum_ignores_root_body three_pokemons
              (λ h u, match u with Root => ok (JObj []) | _ => three_pokemons h u end)
              in_turn 0%nat 3 initial
              (mkResponse 200 (Some (listing 3 ["a"; "b"; "c"]%string)))
              (listing 3 ["a"; "b"; "c"]%string)
              (mkResponse 200 (Some (JObj []))) (JObj []))
    as (_ & _ & Ha & _).
  - intros h u Hu. destruct u; [by destruct Hu|reflexivity|reflexivity].
  - reflexivity.
  - reflexivity.
  - reflexivity.
  - reflexivity.
  - reflexivity.
  - reflexivity.
  - exact Ha.
Defined.

(** ** Pages that fail, pages that cannot be used *)

Lemma in_order_page_answers http pages history offsets :
  (∀ o, o ∈ offsets → page_answer http (page_url o) (pages o)) →
  in_order (page_result http) history (map page_url offsets)
    = Returned (map (λ o, default [] (pages o)) offsets).
Proof.
  revert history. induction offsets as [|o rest IH]; intros history Hans; simpl; [done|].
  destruct (Hans o (list_elem_of_here _ _) history) as (response & Hr & Hpage).
  rewrite IH by (intros o' Ho'; apply Hans; by apply list_elem_of_further).
  unfold page_result. rewrite Hr. simpl.
  destruct (pages o) as [names|]; simpl.
  - destruct Hpage as (Hs & body & Hb & Hn).
    rewrite bool_decide_false by (rewrite Hs; lia).
    rewrite Hb. simpl. by rewrite Hn.
  - by rewrite bool_decide_true.
Qed.

(** X4.  The failure policy of the listing.  When the pagination starts
    with cutoff N and each page request is answered either with a
    well-formed page or with a status other than 200, both listers return
    the names of the well-formed pages in page order: a failed page
    contributes no name and costs the other pages nothing. *)
Theorem failed_pages_contribute_nothing
    http timing c max_pokemons w response json_obj N (pages : Z → option (list json)) :
  http (requested (trace w)) Root = Returned response →
  status_code response = 200 →
  content response = Some json_obj →
  obind (nb_poke_of json_obj max_pokemons) as_int = Returned N →
  (∀ o, o ∈ page_windows N → page_answer http (page_url o) (pages o)) →
  fst (get_pokemon_names_async http timing c max_pokemons w)
    = Returned (concat (map (λ o, default [] (pages o)) (page_windows N)))
  ∧ fst (get_pokemon_names_sync http max_pokemons w)
    = Returned (concat (map (λ o, default [] (pages o)) (page_windows N))).
Proof.
  intros Hroot Hstatus Hbody Hcut Hpages.
  destruct (names_in_page_order_root http _ _ _ _ _ Hroot Hstatus Hbody Hcut)
    as [Hnames _].
  rewrite (in_order_page_answers http pages) in Hnames by done. simpl in Hnames.
  destruct (get_pokemon_names_async_run http timing c max_pokemons w) as (-> & _).
  destruct (get_pokemon_names_sync_run http max_pokemons w) as (-> & _).
  split; [by apply names_gathered_returned|done].
Qed.

Lemma failed_pages_contribute_nothing_witness :
  fst (get_pokemon_names_async first_page_fails last_first 0 None initial)
    = Returned [JStr "k"; JStr "l"]
  ∧ fst (get_pokemon_names_sync first_page_fails None initial)
    = Returned [JStr "k"; JStr "l"].
Proof.
  apply (failed_pages_contribute_nothing first_page_fails last_first 0%nat None initial
           (mkResponse 200 (Some (listing 12 [])))
           (listing 12 []) 12
           (λ o, if o =? 10 then Some [JStr "k"; JStr "l"] else None)).
  - reflexivity.
  - reflexivity.
  - reflexivity.
  - reflexivity.
  - intros o Ho. change (page_windows 12) with [0; 10] in Ho.
    assert (o = 0 ∨ o = 10) as [-> | ->]; [|intros history..].
    { apply elem_of_cons in Ho as [->|Ho]; [by left|].
      apply elem_of_cons in Ho as [->|Ho]; [by right|].
      by apply elem_of_nil in Ho. }
    + exists (mkResponse 500 None). split; [reflexivity|]. simpl. discriminate.
    + exists (mkResponse 200 (Some (listing 12 ["k"; "l"]%string))).
      split; [reflexivity|]. simpl. split; [reflexivity|].
      eexists. split; reflexivity.
Defined.

Lemma in_order_page_unusable http history offsets o :
  o ∈ offsets →
  page_unusable http (page_url o) →
  returned (in_order (page_result http) history (map page_url offsets)) = None.
Proof.
  intros Ho Hbad. revert history.
  induction offsets as [|o' rest IH]; intros history; [by apply elem_of_nil in Ho|].
  simpl. apply elem_of_cons in Ho as [<-|Ho].
  - destruct (Hbad history) as (response & Hr & Hs & Hbody).
    unfold page_result at 1. rewrite Hr. simpl.
    rewrite bool_decide_false by (rewrite Hs; lia).
    destruct Hbody as [->|(body & e & -> & Hn)]; simpl; [done|].
    by rewrite Hn.
  - specialize (IH Ho (history ++ [page_url o'])).
    destruct (page_result http history (page_url o')); simpl; [|done].
    by destruct (in_order _ _ _).
Qed.

(** X5.  A page answered with status 200 whose body cannot be used (it
    does not decode, has no [results], or holds an item without [name])
    is not a failed page: when such a page is among the pages asked for,
    both listers raise and return no name at all. *)
Theorem unusable_page_aborts http timing c max_pokemons w response json_obj N o :
  http (requested (trace w)) Root = Returned response →
  status_code response = 200 →
  content response = Some json_obj →
  obind (nb_poke_of json_obj max_pokemons) as_int = Returned N →
  o ∈ page_windows N →
  page_unusable http (page_url o) →
  returned (fst (get_pokemon_names_async http timing c max_pokemons w)) = None
  ∧ returned (fst (get_pokemon_names_sync http max_pokemons w)) = None.
Proof.
  intros Hroot Hstatus Hbody Hcut Ho Hbad.
  destruct (names_in_page_order_root http _ _ _ _ _ Hroot Hstatus Hbody Hcut)
    as [Hnames _].
  pose proof (in_order_page_unusable http (requested (trace w) ++ [Root])
                _ _ Ho Hbad) as Hpages.
  assert (returned (names_in_page_order http (requested (trace w)) max_pokemons)
          = None) as Hnone.
  { rewrite Hnames. by destruct (in_order _ _ _). }
  destruct (get_pokemon_names_async_run http timing c max_pokemons w) as (-> & _).
  destruct (get_pokemon_names_sync_run http max_pokemons w) as (-> & _).
  by rewrite names_gathered_agrees.
Qed.

Lemma unusable_page_aborts_witness :
  returned (fst (get_pokemon_names_async
                   (λ h u, match u with
                           | Page 10 _ => ok (JObj [])
                           | _ => three_pages h u
                           end) last_first 0 None initial)) = None
  ∧ returned (fst (get_pokemon_names_sync
                     (λ h u, match u with
                             | Page 10 _ => ok (JObj [])
                             | _ => three_pages h u
                             end) None initial)) = None.
Proof.
  apply (unusable_page_aborts
           (λ h u, match u with
                   | Page 10 _ => ok (JObj [])
                   | _ => three_pages h u
                   end) last_first 0%nat None initial
           (mkResponse 200 (Some (listing 25 ["a"; "b"]%string)))
           (listing 25 ["a"; "b"]%string) 25 10).
  - reflexivity.
  - reflexivity.
  - reflexivity.
  - reflexivity.
  - apply page_windows_spec. unfold POKE_PER_PAGE. split; [lia|reflexivity].
  - intros history. exists (mkResponse 200 (Some (JObj []))).
    split; [reflexivity|]. split; [reflexivity|]. right.
    exists (JObj []), (KeyError "results"). split; reflexivity.
Defined.

(** ** The requests of an aggregator *)



(** ** The size and the keys of the mapping *)

Lemma store_all_size details pokemons result :
  store_all details pokemons = Returned result →
  (size result ≤ size pokemons + length details)%nat.
Proof.
  revert pokemons.
  induction details as [|d rest IH]; intros pokemons Hstore; simpl in *.
  - injection Hstore as <-. lia.
  - apply obind_returned in Hstore as (m1 & Hd & Hrest).
    unfold store in Hd. apply obind_returned in Hd as (k & _ & Hm1).
    injection Hm1 as <-. specialize (IH _ Hrest).
    rewrite map_size_insert in IH. destruct (pokemons !! k); simpl in IH; lia.
Qed.

Lemma named_after_store details result :
  store_all details ∅ = Returned result → named_after details result.
Proof.
  intros Hstore. split.
  - intros k.
    destruct (keyed_by_name_store _ _ Hstore) as (_ & Hlast & _).
    rewrite Hlast. unfold last_named. rewrite last_is_Some. split.
    + intros Hne.
      destruct (filter (λ d, key_of d = Returned k) details) as [|d l] eqn:Hf;
        [done|].
      exists d. apply and_comm. apply (list_elem_of_filter (λ d, key_of d = Returned k)).
      rewrite Hf. apply list_elem_of_here.
    + intros (d & Hd & Hk) Hnil.
      assert (d ∈ filter (λ d, key_of d = Returned k) details) as Hin
        by by apply list_elem_of_filter.
      rewrite Hnil in Hin. by apply elem_of_nil in Hin.
  - pose proof (store_all_size _ _ _ Hstore) as Hsize.
    by rewrite map_size_empty in Hsize.
Qed.

(** X7.  When an aggregator returns, the keys of its mapping are exactly
    the names carried by the detail records it fetched, and the mapping
    has at most as many entries as records were fetched (fewer when two
    records carry the same name). *)
Theorem returned_mapping_keys http timing number w result :
  (fst (get_pokemons_async http timing number w) = Returned result →
   named_after
     (fetched_details (events_of (get_pokemons_async http timing number) w)) result)
  ∧ (fst (get_pokemons_sync http number w) = Returned result →
     named_after
       (fetched_details (events_of (get_pokemons_sync http number) w)) result).
Proof.
  split.
  - intros Hrun.
    destruct (get_pokemons_async_run http timing number w) as (Hr & Ht & _).
    rewrite Hrun in Hr. symmetry in Hr.
    apply aggregated_gathered_returned in Hr.
    rewrite (events_of_extension _ _ _ Ht), fetched_details_session.
    apply named_after_store. by apply aggregated_fetched.
  - intros Hrun.
    destruct (get_pokemons_sync_run http number w)
      as (Hr & (sent & _ & Ht & Hall) & _).
    rewrite (Hall _ Hrun) in Ht. rewrite Hrun in Hr. simpl in Hr.
    assert (aggregated http (requested (trace w)) number = Returned result) as Hagg.
    { destruct (aggregated _ _ _); simpl in Hr; congruence. }
    rewrite (events_of_extension _ _ _ Ht).
    apply named_after_store. by apply aggregated_fetched.
Qed.

Lemma returned_mapping_keys_witness :
  ∃ result,
    fst (get_pokemons_sync same_name 2 initial) = Returned result
    ∧ named_after
        (fetched_details (events_of (get_pokemons_sync same_name 2) initial)) result
    ∧ size result = 1%nat
    ∧ length (fetched_details (events_of (get_pokemons_sync same_name 2) initial))
      = 2%nat.
Proof.
  exists (<[KStr "x" := JObj [("name"%string, JStr "x"); ("id"%string, JNum 2)]]> ∅).
  destruct (returned_mapping_keys same_name in_turn 2 initial
              (<[KStr "x" := JObj [("name"%string, JStr "x"); ("id"%string, JNum 2)]]> ∅))
    as [_ Hs].
  split_and!.
  - vm_compute. reflexivity.
  - apply Hs. vm_compute. reflexivity.
  - vm_compute. reflexivity.
  - vm_compute. reflexivity.
Defined.

(** ** A mapping is returned only when every request went well *)

Lemma exchanges_answered {A} http (g : list Url → Url → outcome A) via history urls l :
  (∀ h u a, g h u = Returned a → ∃ response, http h u = Returned response) →
  in_order g history urls = Returned l →
  all_answered (exchanges http via history urls).
Proof.
  intros Hg. revert history l.
  induction urls as [|u rest IH]; intros history l Hl via' u' r Hin; simpl in *.
  - by apply elem_of_nil in Hin.
  - apply obind_returned in Hl as (a & Ha & Hrest).
    apply obind_returned in Hrest as (l' & Hl' & _).
    apply elem_of_cons in Hin as [Heq|Hin].
    + injection Heq as _ _ ->. by eapply Hg.
    + by eapply IH.
Qed.

Lemma all_answered_app t1 t2 :
  all_answered t1 → all_answered t2 → all_answered (t1 ++ t2).
Proof.
  intros H1 H2 via u r Hin. apply elem_of_app in Hin as [Hin|Hin]; eauto.
Qed.

Lemma aggregated_answered http via history number result :
  aggregated http history number = Returned result →
  all_answered (exchanges http via history (requests_asked http history number)).
Proof.
  unfold aggregated, requests_asked, details_asked. intros Hagg.
  apply obind_returned in Hagg as (names & Hnames & Hagg).
  apply obind_returned in Hagg as (details & Hdetails & _).
  rewrite Hnames. simpl.
  rewrite exchanges_app, <- app_assoc. simpl.
  assert (all_answered
            (exchanges http via
               (history ++ Root :: pages_asked http history (Some number))
               (map Detail names))) as Hd.
  { eapply exchanges_answered; [|exact Hdetails].
    intros h u a. unfold detail_result.
    destruct (http h u); [eauto|discriminate]. }
  clear Hdetails.
  unfold names_in_page_order in Hnames. unfold pages_asked, cutoff_of in *.
  destruct (http history Root) as [response|e]; simpl in *; [|discriminate].
  assert (all_answered [Got via Root (Returned response)]) as Hroot.
  { intros via' u r Hin. apply list_elem_of_singleton in Hin.
    injection Hin as _ _ ->. eauto. }
  change (Got via Root (Returned response) :: ?l)
    with ([Got via Root (Returned response)] ++ l).
  apply all_answered_app; [done|].
  apply all_answered_app; [|done].
  case_bool_decide; [by intros ? ? ? ?%elem_of_nil|].
  destruct (content response) as [json_obj|]; simpl in *; [|discriminate].
  apply obind_returned in Hnames as (pages & Hpages & _).
  eapply exchanges_answered; [|exact Hpages].
  intros h u a. unfold page_result.
  destruct (http h u); [eauto|discriminate].
Qed.

(** X8.  The transport's exceptions are not caught: when an aggregator
    returns a mapping, every request of the run was answered by a
    response. *)
Theorem returned_mapping_all_answered http timing number w result :
  (fst (get_pokemons_async http timing number w) = Returned result →
   all_answered (events_of (get_pokemons_async http timing number) w))
  ∧ (fst (get_pokemons_sync http number w) = Returned result →
     all_answered (events_of (get_pokemons_sync http number) w)).
Proof.
  split; intros Hrun.
  - destruct (get_pokemons_async_run http timing number w) as (Hr & Ht & _).
    rewrite Hrun in Hr. symmetry in Hr.
    apply aggregated_gathered_returned in Hr.
    rewrite (events_of_extension _ _ _ Ht).
    intros via u r Hin.
    apply elem_of_cons in Hin as [Hin|Hin]; [discriminate|].
    apply elem_of_app in Hin as [Hin|Hin].
    + by eapply aggregated_answered.
    + apply list_elem_of_singleton in Hin. discriminate.
  - destruct (get_pokemons_sync_run http number w)
      as (Hr & (sent & _ & Ht & Hall) & _).
    rewrite (Hall _ Hrun) in Ht. rewrite Hrun in Hr. simpl in Hr.
    assert (aggregated http (requested (trace w)) number = Returned result) as Hagg.
    { destruct (aggregated _ _ _); simpl in Hr; congruence. }
    rewrite (events_of_extension _ _ _ Ht).
    by eapply aggregated_answered.
Qed.

Lemma returned_mapping_all_answered_witness :
  all_answered (events_of (get_pokemons_async three_pokemons in_turn 3) initial)
  ∧ all_answered (events_of (get_pokemons_sync three_pokemons 3) initial).
Proof.
  destruct (returned_mapping_all_answered three_pokemons in_turn 3 initial abc) as [Ha Hs].
  split.
  - apply Ha. vm_compute. reflexivity.
  - apply Hs. vm_compute. reflexivity.
Defined.

(** ** The comparison driver *)

Lemma in_order_stateless {A} (g : list Url → Url → outcome A) history history' urls :
  (∀ h h' u, g h u = g h' u) →
  in_order g history urls = in_order g history' urls.
Proof.
  intros Hg. revert history history'.
  induction urls as [|u rest IH]; intros history history'; simpl; [done|].
  by rewrite (Hg history history' u), (IH (history ++ [u]) (history' ++ [u])).
Qed.

Lemma aggregated_stateless http history history' number :
  stateless http →
  aggregated http history number = aggregated http history' number
  ∧ requests_asked http history number = requests_asked http history' number.
Proof.
  intros Hhttp.
  assert (∀ h h' u, page_result http h u = page_result http h' u) as Hpage.
  { intros h h' u. unfold page_result. by rewrite (Hhttp h h' u). }
  assert (∀ h h' u, detail_result http h u = detail_result http h' u) as Hdetail.
  { intros h h' u. unfold detail_result. by rewrite (Hhttp h h' u). }
  assert (names_in_page_order http history (Some number)
          = names_in_page_order http history' (Some number)) as Hnames.
  { unfold names_in_page_order. rewrite (Hhttp history history' Root).
    destruct (http history' Root) as [response|]; simpl; [|done].
    case_bool_decide; [done|].
    destruct (content response); simpl; [|done].
    by rewrite (in_order_stateless _ (history ++ [Root]) (history' ++ [Root])). }
  assert (pages_asked http history (Some number)
          = pages_asked http history' (Some number)) as Hpages.
  { unfold pages_asked. by rewrite (Hhttp history history' Root). }
  unfold aggregated, requests_asked, details_asked.
  rewrite Hnames, Hpages. split; [|done].
  destruct (names_in_page_order http history' (Some number)); simpl; [|done].
  by rewrite (in_order_stateless (detail_result http)
                (history ++ Root :: pages_asked http history' (Some number))
                (history' ++ Root :: pages_asked http history' (Some number))).
Qed.

(** X9.  The driver runs the concurrent aggregator, then the sequential
    one, for 1302 items.  An exception of the concurrent run ends the
    driver before the sequential run starts.  Over a transport whose
    answers do not depend on earlier requests, a concurrent run that
    returns is followed by a sequential run that returns the same
    mapping: the two counts printed are equal, the requests of the first
    run are sent a second time in the same order, and the driver ends
    normally unless the two clock readings around the concurrent run are
    equal, in which case the ratio raises [ZeroDivisionError] after the
    counts are printed. *)
Theorem driver_run http timing t0 t1 t2 t3 w :
  let run_async := get_pokemons_async http timing 1302 w in
  let run_sync := get_pokemons_sync http 1302 (snd run_async) in
  (∀ e, fst run_async = Raised e →
     compare_sync_async http timing t0 t1 t2 t3 w
       = (PipelineRaised e, printed_since w (snd run_async), snd run_async))
  ∧ (stateless http → ∀ result, fst run_async = Returned result →
       fst run_sync = Returned result
       ∧ compare_sync_async http timing t0 t1 t2 t3 w
         = (if t1 - t0 =? 0 then ZeroDivisionError else Finished,
            (printed_since w (snd run_async) ++ [AsyncRan (t1 - t0)])
              ++ printed_since (snd run_async) (snd run_sync)
              ++ [SyncRan (t3 - t2); AsyncCount (size result);
                  SyncCount (size result)]
              ++ (if t1 - t0 =? 0 then [] else [Faster (t3 - t2) (t1 - t0)]),
            snd run_sync)
       ∧ requested (trace (snd run_sync))
         = requested (trace w)
             ++ requested (events_of (get_pokemons_async http timing 1302) w)
             ++ requested (events_of (get_pokemons_async http timing 1302) w)).
Proof.
  unfold compare_sync_async. cbv zeta. generalize 1302. intros n.
  destruct (get_pokemons_async_run http timing n w) as (Ha & Hta & _).
  destruct (get_pokemons_async http timing n w) as [ra w1] eqn:Hrun_a.
  cbn [fst snd] in *.
  split.
  - intros e ->. reflexivity.
  - intros Hhttp result ->.
    destruct (get_pokemons_sync_run http n w1)
      as (Hs & (sent & _ & Hts & Hall) & _).
    destruct (aggregated_stateless http (requested (trace w1))
                (requested (trace w)) n Hhttp) as [Hagg Hreq].
    symmetry in Ha. apply aggregated_gathered_returned in Ha.
    rewrite Hagg, Ha in Hs. cbn [returned] in Hs.
    destruct (get_pokemons_sync http n w1) as [rs w2].
    cbn [fst snd] in *.
    assert (rs = Returned result) as ->.
    { destruct rs; cbn [returned] in Hs; congruence. }
    rewrite (Hall _ eq_refl), Hreq in Hts. clear Hall.
    assert (requested (events_of (get_pokemons_async http timing n) w)
            = requests_asked http (requested (trace w)) n) as Hevents.
    { unfold events_of. rewrite Hrun_a. cbn [snd]. rewrite Hta, drop_app_length.
      cbn [requested].
      by rewrite requested_app, requested_exchanges, app_nil_r. }
    split_and!.
    + reflexivity.
    + destruct (t1 - t0 =? 0).
      * by rewrite app_nil_r, <- !app_assoc.
      * by rewrite <- !app_assoc.
    + rewrite Hts, requested_app, requested_exchanges, Hta, requested_app.
      cbn [requested]. rewrite requested_app, requested_exchanges.
      cbn [requested]. rewrite app_nil_r, Hevents.
      by rewrite <- app_assoc.
Qed.

Lemma driver_run_witness :
  fst (fst (compare_sync_async three_pokemons in_turn 0 1500 1600 9000 initial))
    = Finished
  ∧ fst (fst (compare_sync_async three_pokemons in_turn 7 7 8 9 initial))
    = ZeroDivisionError.
Proof.
  split.
  - destruct (driver_run three_pokemons in_turn 0 1500 1600 9000 initial) as [_ Hrun].
    destruct (Hrun (λ _ _ _, eq_refl) abc) as (_ & Hdriver & _).
    + vm_compute. reflexivity.
    + rewrite Hdriver. reflexivity.
  - destruct (driver_run three_pokemons in_turn 7 7 8 9 initial) as [_ Hrun].
    destruct (Hrun (λ _ _ _, eq_refl) abc) as (_ & Hdriver & _).
    + vm_compute. reflexivity.
    + rewrite Hdriver. reflexivity.
Defined.

(** ** A listing that reports no item *)

(** X10.  Without a maximum, a root answer whose count is zero or
    negative (or [false]) ends the listing at once: both listers return
    the empty list after the root request alone and print nothing. *)
Theorem empty_listing_no_pages http timing c w response json_obj count n :
  http (requested (trace w)) Root = Returned response →
  status_code response = 200 →
  content response = Some json_obj →
  subscript json_obj "count" = Returned count →
  as_int count = Returned n →
  n ≤ 0 →
  get_pokemon_names_async http timing c None w
    = (Returned [],
       mkWorld (clients w)
         (trace w ++ [Got (Some c) Root (Returned response)]) (stdout w))
  ∧ get_pokemon_names_sync http None w
    = (Returned [],
       mkWorld (clients w)
         (trace w ++ [Got None Root (Returned response)]) (stdout w)).
Proof.
  intros Hroot Hstatus Hbody Hcount Hint Hn.
  assert (Z.to_nat n = 0%nat) as Hfuel by lia.
  split.
  - unfold get_pokemon_names_async, bind, ret, lift, print, client_get, emit.
    rewrite Hroot. cbn [fst snd]. cbv beta iota.
    rewrite bool_decide_false by (rewrite Hstatus; lia).
    rewrite Hbody. cbn [loads nb_poke_of]. rewrite Hcount. cbn [obind].
    rewrite Hint. rewrite Hfuel. cbn [page_coroutines]. by rewrite gathered_nil.
  - unfold get_pokemon_names_sync, bind, ret, lift, print, requests_get, emit.
    rewrite Hroot. cbn [fst snd]. cbv beta iota.
    rewrite bool_decide_false by (rewrite Hstatus; lia).
    rewrite Hbody. cbn [loads nb_poke_of]. rewrite Hcount. cbn [obind].
    rewrite Hint. by rewrite Hfuel.
Qed.

Lemma empty_listing_no_pages_witness :
  get_pokemon_names_sync (λ _ _, ok (listing 0 [])) None initial
    = (Returned [], mkWorld 0 [Got None Root (ok (listing 0 []))] []).
Proof.
  destruct (empty_listing_no_pages (λ _ _, ok (listing 0 [])) in_turn 0%nat initial
              (mkResponse 200 (Some (listing 0 []))) (listing 0 []) (JNum 0) 0)
    as [_ Hs].
  - reflexivity.
  - reflexivity.
  - reflexivity.
  - reflexivity.
  - reflexivity.
  - lia.
  - exact Hs.
Defined.

(** ** The mapping that is built *)






(** ** The output of a run *)

Lemma lines_of_app t1 t2 : lines_of (t1 ++ t2) = lines_of t1 ++ lines_of t2.
Proof.
  induction t1 as [|e t1 IH]; [done|].
  destruct e; cbn [app lines_of]; by rewrite ?IH, <- ?app_assoc.
Qed.

Lemma follows_refl w : follows w w.
Proof. exists [], []. by rewrite !app_nil_r. Qed.

Lemma follows_trans w1 w2 w3 : follows w1 w2 → follows w2 w3 → follows w1 w3.
Proof.
  intros (t1 & p1 & Ht1 & Hp1 & Hf1) (t2 & p2 & Ht2 & Hp2 & Hf2).
  exists (t1 ++ t2), (p1 ++ p2).
  rewrite Ht2, Ht1, Hp2, Hp1, filter_app, lines_of_app, Hf1, Hf2.
  by rewrite !app_assoc.
Qed.

Lemma follows_exchange w via u r printed :
  filter (λ l, is_saved l = false) printed = announce u ++ diagnostics r →
  follows w (mkWorld (clients w) (trace w ++ [Got via u r]) (stdout w ++ printed)).
Proof.
  intros Hprinted. exists [Got via u r], printed. cbn [trace stdout lines_of].
  by rewrite Hprinted, !app_nil_r.
Qed.

Lemma follows_silent w via u r :
  announce u ++ diagnostics r = [] →
  follows w (mkWorld (clients w) (trace w ++ [Got via u r]) (stdout w)).
Proof.
  intros Hsilent. exists [Got via u r], []. cbn [trace stdout lines_of].
  by rewrite !app_nil_r, Hsilent.
Qed.

Lemma diagnostics_not_saved r :
  filter (λ l, is_saved l = false) (diagnostics r) = diagnostics r.
Proof.
  destruct r as [response|]; cbn [diagnostics]; [|done]. by case_bool_decide.
Qed.

Lemma follows_bind {A B} (m : M A) (k : A → M B) w :
  follows w (snd (m w)) →
  (∀ a w1, follows w1 (snd (k a w1))) →
  follows w (snd (bind m k w)).
Proof.
  intros Hm Hk. unfold bind.
  destruct (m w) as [[a|e] w1]; cbn [snd] in *; [|done].
  eapply follows_trans; [exact Hm|apply Hk].
Qed.

Lemma follows_page_sync http o w :
  follows w (snd (get_pokemon_page_sync http (page_url o) w)).
Proof.
  rewrite get_pokemon_page_sync_run. cbn [snd].
  apply follows_exchange. cbn [page_url announce app].
  rewrite filter_cons_True by done. by rewrite diagnostics_not_saved.
Qed.

Lemma follows_details_sync http name w :
  follows w (snd (get_pokemon_details_sync http (Detail name) w)).
Proof.
  rewrite get_pokemon_details_sync_run. cbn [snd].
  apply follows_exchange. cbn [announce app].
  rewrite filter_cons_True by done. by rewrite diagnostics_not_saved.
Qed.

Lemma follows_save pokemons poke_detail w :
  follows w (snd (save pokemons poke_detail w)).
Proof.
  unfold save, bind, ret, lift, print.
  destruct (subscript poke_detail "name") as [name|]; cbn [fst snd];
    [|apply follows_refl].
  destruct (hashable name); cbn [fst snd]; [|apply follows_refl].
  exists [], [Saved name]. cbn [trace stdout lines_of].
  by rewrite app_nil_r.
Qed.

Lemma follows_save_all details pokemons w :
  follows w (snd (save_all details pokemons w)).
Proof.
  revert pokemons w. induction details as [|d rest IH]; intros pokemons w;
    cbn [save_all]; [apply follows_refl|].
  apply follows_bind; [apply follows_save|]. intros m w1. apply IH.
Qed.

Lemma follows_pages_loop_sync http fuel offset nb_poke names w :
  follows w (snd (pages_loop_sync http fuel offset nb_poke names w)).
Proof.
  revert offset names w. induction fuel as [|fuel IH]; intros offset names w;
    cbn [pages_loop_sync]; [apply follows_refl|].
  destruct (offset <? nb_poke); [|apply follows_refl].
  apply follows_bind; [apply (follows_page_sync http offset)|].
  intros page w1. apply IH.
Qed.

Lemma follows_details_loop_sync http names pokemons w :
  follows w (snd (details_loop_sync http names pokemons w)).
Proof.
  revert pokemons w. induction names as [|name rest IH]; intros pokemons w;
    cbn [details_loop_sync]; [apply follows_refl|].
  apply follows_bind; [apply follows_details_sync|]. intros d w1.
  apply follows_bind; [apply follows_save|]. intros m w2. apply IH.
Qed.

(** The shape of a lister: the root request, the message for a status
    other than 200, or else the rest of the listing. *)
Lemma follows_listing {A} http via (get : M Response) (k : Response → M (list A)) w :
  (∀ w0, get w0 = (http (requested (trace w0)) Root,
                   emit (Got via Root (http (requested (trace w0)) Root)) w0)) →
  (∀ response w1, follows w1 (snd (k response w1))) →
  follows w
    (snd ((let* response := get in
           if bool_decide (status_code response ≠ 200) then
             let* _ := print NotOk in ret []
           else k response) w)).
Proof.
  intros Hget Hk. unfold bind at 1. rewrite Hget. unfold emit.
  destruct (http (requested (trace w)) Root) as [response|e]; cbn [snd].
  - case_bool_decide as Hs.
    + unfold bind, print, ret. cbn [snd clients trace stdout].
      apply follows_exchange. cbn [announce diagnostics app].
      by rewrite bool_decide_true.
    + eapply follows_trans; [|apply Hk].
      apply follows_silent. cbn [announce diagnostics app].
      by rewrite bool_decide_false by (intros Hne; by apply Hne).
  - by apply follows_silent.
Qed.

Lemma follows_names_sync http max_pokemons w :
  follows w (snd (get_pokemon_names_sync http max_pokemons w)).
Proof.
  unfold get_pokemon_names_sync.
  apply (follows_listing http None); [done|].
  intros response w1.
  apply follows_bind; [apply follows_refl|]. intros json_obj w2.
  apply follows_bind; [apply follows_refl|]. intros nb_poke w3.
  apply follows_pages_loop_sync.
Qed.

(** X12.  What a sequential run prints follows what it requests.  In
    every run of the sequential lister or of the sequential aggregator,
    whether it returns or raises, the lines printed (the "saved" lines of
    the aggregator apart) are, in the order of the requests, the
    announcement of each page or detail request and, right after it, the
    message "Api did not respond with status code 200!" exactly when the
    answer has another status; the root request is not announced. *)
Theorem output_follows_requests http max_pokemons number w :
  follows w (snd (get_pokemon_names_sync http max_pokemons w))
  ∧ follows w (snd (get_pokemons_sync http number w)).
Proof.
  split.
  - apply follows_names_sync.
  - unfold get_pokemons_sync.
    apply follows_bind; [apply follows_names_sync|]. intros names w1.
    apply follows_details_loop_sync.
Qed.

(** ** Gathered requests *)

(** X15.  Gathered page requests raise the first exception in time, the
    sequential loop the first in page order.  On two pages that cannot be
    used, the first for want of [results] and the second for a body that
    does not decode, the sequential lister raises [KeyError('results')]
    after the first page request alone; the concurrent lister sends both
    requests and raises [KeyError('results')] when the answers come in in
    turn, the exception of [json.loads] when the second answer comes in
    first. *)
Example first_exception_in_time :
  get_pokemon_names_sync two_bad None initial
    = (Raised (KeyError "results"),
       mkWorld 0 [Got None Root (ok (listing 12 []));
                  Got None (Page 0 10) (ok (JObj []))]
         [RetrievingUrl (Page 0 10)])
  ∧ fst (get_pokemon_names_async two_bad in_turn 0 None initial)
    = Raised (KeyError "results")
  ∧ fst (get_pokemon_names_async two_bad last_first 0 None initial)
    = Raised DecodeError
  ∧ (∀ timing,
       requested (trace (snd (get_pokemon_names_async two_bad timing 0 None initial)))
         = [Root; Page 0 10; Page 10 10]
       ∧ returned (fst (get_pokemon_names_async two_bad timing 0 None initial))
         = None).
Proof.
  split_and!.
  - vm_compute. reflexivity.
  - vm_compute. reflexivity.
  - vm_compute. reflexivity.
  - intros timing.
    destruct (get_pokemon_names_async_run two_bad timing 0%nat None initial)
      as (-> & -> & _).
    split; [vm_compute; reflexivity|].
    rewrite names_gathered_agrees. vm_compute. reflexivity.
Qed.

(** What gathered page coroutines print: the announcements of all the
    pages, in submission order, and after them nothing but messages. *)
Lemma messages_after_refl w : messages_after w w.
Proof. exists []. by rewrite app_nil_r. Qed.

Lemma messages_after_trans w1 w2 w3 :
  messages_after w1 w2 → messages_after w2 w3 → messages_after w1 w3.
Proof.
  intros (m1 & H1 & Hm1) (m2 & H2 & Hm2). exists (m1 ++ m2).
  rewrite H2, H1, <- app_assoc. split; [done|]. by apply Forall_app.
Qed.

Lemma launch_all_announces http c urls w :
  stdout (snd (launch_all (map (page_coroutine http c) urls) w))
    = stdout w ++ map RetrievingUrl urls.
Proof.
  revert w. induction urls as [|u rest IH]; intros w; cbn [map launch_all snd].
  - by rewrite app_nil_r.
  - unfold page_coroutine at 1. cbn [launch].
    unfold bind, print, client_get, emit. cbn [fst snd].
    match goal with
    | |- context [launch_all ?cs ?w1] =>
        specialize (IH w1); destruct (launch_all cs w1) as [rs w2]
    end.
    cbn [snd stdout] in *. by rewrite IH, <- app_assoc.
Qed.

Lemma resume_messages http c urls rs i g w :
  messages_after w
    (snd (resume (zip (map (page_coroutine http c) urls) rs) i (g, w))).
Proof.
  unfold resume. cbn [fst snd].
  rewrite lookup_zip_with, !list_lookup_fmap.
  destruct (urls !! i) as [u|]; cbn [fmap option_fmap option_map mbind option_bind];
    [|apply messages_after_refl].
  destruct (rs !! i) as [r|]; cbn [fmap option_fmap option_map mbind option_bind];
    [|apply messages_after_refl].
  unfold bind, lift. destruct r as [response|e]; cbn [fst snd];
    [|apply messages_after_refl].
  unfold page_coroutine. cbn [land].
  case_bool_decide.
  - unfold bind, print, ret. cbn [fst snd]. exists [NotOk]. cbn [stdout].
    split; [done|]. by constructor.
  - unfold bind, lift.
    destruct (loads (content response)) as [json_obj|]; cbn [fst snd];
      [|apply messages_after_refl].
    apply messages_after_refl.
Qed.

Lemma foldl_messages {A} (step : gathering A * World → nat → gathering A * World)
    order st :
  (∀ st i, messages_after (snd st) (snd (step st i))) →
  messages_after (snd st) (snd (foldl step st order)).
Proof.
  intros Hstep. revert st.
  induction order as [|i rest IH]; intros st; cbn [foldl];
    [apply messages_after_refl|].
  eapply messages_after_trans; [apply Hstep|apply IH].
Qed.

(** [gather] on page coroutines prints every announcement before any
    message. *)
Lemma gather_announces http c completion urls w :
  ∃ messages,
    stdout (snd (gather completion (map (page_coroutine http c) urls) w))
      = stdout w ++ map RetrievingUrl urls ++ messages
    ∧ Forall (λ l, l = NotOk) messages.
Proof.
  unfold gather.
  pose proof (launch_all_announces http c urls w) as Hlaunch.
  destruct (launch_all (map (page_coroutine http c) urls) w) as [rs w1].
  cbn [snd] in *. cbv zeta.
  set (tasks := zip (map (page_coroutine http c) urls) rs).
  set (st0 := (mkGathering (replicate (length tasks) None) None, w1)).
  assert (∀ st i, messages_after (snd st) (snd (resume tasks i st))) as Hresume.
  { intros [g w'] i. apply resume_messages. }
  assert (∀ st i, messages_after (snd st)
                    (snd (resume_unless_raised tasks i st))) as Hunless.
  { intros st i. unfold resume_unless_raised.
    destruct (first_exception (fst st)); [apply messages_after_refl|apply Hresume]. }
  pose proof (foldl_messages (λ st i, resume tasks i st)
                (resumed_first completion (length tasks)) st0 Hresume) as H1.
  pose proof (foldl_messages (λ st i, resume_unless_raised tasks i st)
                (resumed_last completion (length tasks))
                (foldl (λ st i, resume tasks i st) st0
                   (resumed_first completion (length tasks))) Hunless) as H2.
  destruct (messages_after_trans _ _ _ H1 H2) as (messages & Hout & Hm).
  exists messages. cbn [snd]. split; [|done].
  rewrite Hout. unfold st0. cbn [snd]. by rewrite Hlaunch, <- app_assoc.
Qed.

(** X16.  Gathered page requests are all announced and sent before any
    answer is handled.  When the pagination starts, the concurrent lister
    prints the announcements of all its page requests, in page order, and
    after them nothing but messages "Api did not respond with status code
    200!", in whichever order the answers come in and whether it returns
    or raises. *)
Theorem announcements_before_answers
    http timing c max_pokemons w response json_obj cutoff :
  http (requested (trace w)) Root = Returned response →
  status_code response = 200 →
  content response = Some json_obj →
  obind (nb_poke_of json_obj max_pokemons) as_int = Returned cutoff →
  ∃ messages,
    stdout (snd (get_pokemon_names_async http timing c max_pokemons w))
      = stdout w ++ map (λ o, RetrievingUrl (page_url o)) (page_windows cutoff)
          ++ messages
    ∧ Forall (λ l, l = NotOk) messages.
Proof.
  intros Hroot Hstatus Hbody Hcut.
  unfold get_pokemon_names_async, bind, ret, lift, print, client_get, emit, gathered.
  rewrite Hroot. cbn [fst snd].
  rewrite bool_decide_false by (rewrite Hstatus; lia).
  rewrite Hbody. cbn [loads fst snd]. rewrite Hcut. cbn [fst snd].
  rewrite page_coroutines_visited, offsets_visited_all.
  match goal with
  | |- context [gather ?completion (map ?f ?urls) ?w1] =>
      destruct (gather_announces http c completion urls w1)
        as (messages & Hout & Hm);
      destruct (gather completion (map f urls) w1) as [[pages|e] w2]
  end; cbn [fst snd stdout] in *; exists messages;
    (split; [|done]); rewrite Hout; by rewrite map_map.
Qed.

Lemma announcements_before_answers_witness :
  ∃ messages,
    stdout (snd (get_pokemon_names_async first_page_fails last_first 0 None initial))
      = [RetrievingUrl (Page 0 10); RetrievingUrl (Page 10 10)] ++ messages
    ∧ Forall (λ l, l = NotOk) messages.
Proof.
  apply (announcements_before_answers first_page_fails last_first 0%nat None initial
           (mkResponse 200 (Some (listing 12 []))) (listing 12 []) 12);
    reflexivity.
Defined.

(** X17.  The output of the two listers on two pages of which the first
    is answered 500: the concurrent lister prints both announcements and
    then the message, in whichever order the answers come in; the
    sequential lister prints the message right after the first
    announcement. *)
Example output_on_failed_page :
  stdout (snd (get_pokemon_names_async first_page_fails in_turn 0 None initial))
    = [RetrievingUrl (Page 0 10); RetrievingUrl (Page 10 10); NotOk]
  ∧ stdout (snd (get_pokemon_names_async first_page_fails last_first 0 None initial))
    = [RetrievingUrl (Page 0 10); RetrievingUrl (Page 10 10); NotOk]
  ∧ stdout (snd (get_pokemon_names_sync first_page_fails None initial))
    = [RetrievingUrl (Page 0 10); NotOk; RetrievingUrl (Page 10 10)].
Proof. split_and!; vm_compute; reflexivity. Qed.

(** ** Failed requests, at concrete inputs *)

Lemma failed_detail_never_returns_witness :
  (Got (Some 0%nat) (Detail (JStr "a")) (failed 404)
     ∉ events_of (get_pokemons_async three_pokemons in_turn 3) initial)
  ∧ (Got None (Detail (JStr "a")) (failed 404)
       ∉ events_of (get_pokemons_sync three_pokemons 3) initial).
Proof.
  split.
  - destruct (failed_detail_never_returns three_pokemons in_turn 3 initial abc
                (Some 0%nat) (JStr "a") (mkResponse 404 None)) as [Ha _].
    + discriminate.
    + apply Ha. vm_compute. reflexivity.
  - destruct (failed_detail_never_returns three_pokemons in_turn 3 initial abc
                None (JStr "a") (mkResponse 404 None)) as [_ Hs].
    + discriminate.
    + apply Hs. vm_compute. reflexivity.
Defined.

Lemma failed_request_degrades_witness :
  fst (get_pokemon_page_sync first_page_fails (Page 0 10) initial) = Returned []
  ∧ stdout (snd (get_pokemon_page_sync first_page_fails (Page 0 10) initial))
    = [RetrievingUrl (Page 0 10); NotOk]
  ∧ fst (get_pokemon_details_async first_detail_fails 0 (Detail (JStr "a")) initial)
    = Returned (JObj []).
Proof.
  destruct (failed_request_degrades first_page_fails 0%nat (Page 0 10) initial
              (mkResponse 500 None)) as (_ & (Hp & Hout) & _).
  - reflexivity.
  - discriminate.
  - destruct (failed_request_degrades first_detail_fails 0%nat
                (Detail (JStr "a")) initial (mkResponse 404 None))
      as (_ & _ & (Hd & _) & _).
    + reflexivity.
    + discriminate.
    + split_and!; [exact Hp|exact Hout|exact Hd].
Defined.
